(** * INTERLOCK: cipher/HSM registry, nonce-injecting wrapper, API dispatcher

    A shallow embedding of [config.go] and [api.go].  Go maps are finite
    maps ([gmap]) wrapped in [option] ([None] is the nil map), strings are
    byte strings, and the mutable process state is threaded through a small
    state monad whose runs end by returning, by exiting ([log.Fatal]) or by
    a run-time panic. *)

From Stdlib Require Import String Ascii List ZArith Lia.
From stdpp Require Import base gmap strings list fin_maps.

Local Open Scope string_scope.

(* ===================================================================== *)
(** ** The Go [strings] package, as far as the program uses it            *)
(* ===================================================================== *)

Module GoStrings.

(** [strings.HasPrefix(s, prefix)]. *)
Definition HasPrefix (s pre : string) : bool := String.prefix pre s.

(** Drop the first [n] bytes. *)
Fixpoint drop_bytes (n : nat) (s : string) : string :=
  match n, s with
  | O, _ => s
  | S _, EmptyString => EmptyString
  | S k, String _ s' => drop_bytes k s'
  end.

(** The scan shared by [Split] and [Replace]: walk [s] from the left;
    [skip] counts the bytes of a separator still to be stepped over after
    a match, so matches are leftmost and never overlap. [cur] is the
    piece being collected, in reverse. *)
Fixpoint split_from (sep s : string) (skip : nat) (cur : list ascii)
  : list string :=
  match s with
  | EmptyString => [string_of_list_ascii (rev cur)]
  | String c s' =>
      match skip with
      | S k => split_from sep s' k cur
      | O =>
          if HasPrefix s sep
          then string_of_list_ascii (rev cur)
                 :: split_from sep s' (String.length sep - 1) []
          else split_from sep s' 0 (c :: cur)
      end
  end.

(** [strings.Split(s, sep)] for a non-empty [sep] (the program splits on
    [":"] and [","]): the pieces between the occurrences of [sep];
    a string without [sep] gives the one-element list [[s]]. *)
Definition Split (s sep : string) : list string := split_from sep s 0 [].

(** [strings.Join(l, sep)]. *)
Fixpoint Join (l : list string) (sep : string) : string :=
  match l with
  | [] => ""
  | [x] => x
  | x :: l' => x ++ sep ++ Join l' sep
  end.

Fixpoint replace_from (old new s : string) (skip : nat) : string :=
  match s with
  | EmptyString => EmptyString
  | String c s' =>
      match skip with
      | S k => replace_from old new s' k
      | O =>
          if HasPrefix s old
          then new ++ replace_from old new s' (String.length old - 1)
          else String c (replace_from old new s' 0)
      end
  end.

(** [strings.Replace(s, old, new, -1)] for a non-empty [old]: every
    non-overlapping occurrence of [old], found from the left, becomes
    [new]. *)
Definition ReplaceAll (s old new : string) : string :=
  replace_from old new s 0.

End GoStrings.

(* ===================================================================== *)
(** ** Runs that return, exit or panic                                    *)
(* ===================================================================== *)

(** How a run over a state [S] ends: it returns a value, the process exits
    ([log.Fatal] prints and calls [os.Exit(1)]), or the Go runtime panics. *)
Inductive outcome (S A : Type) : Type :=
| Done (a : A) (s : S)
| Exit (s : S)
| Panic (msg : string) (s : S).
Arguments Done {S A} a s.
Arguments Exit {S A} s.
Arguments Panic {S A} msg s.

Definition M (S A : Type) : Type := S → outcome S A.

#[export] Instance M_ret {S} : MRet (M S) := λ A a s, Done a s.

#[export] Instance M_bind {S} : MBind (M S) := λ A B f m s,
  match m s with
  | Done a s' => f a s'
  | Exit s' => Exit s'
  | Panic msg s' => Panic msg s'
  end.

Definition get {S} : M S S := λ s, Done s s.
Definition put {S} (s : S) : M S unit := λ _, Done tt s.
Definition modify {S} (f : S → S) : M S unit := λ s, Done tt (f s).
Definition exit {S A} : M S A := λ s, Exit s.
Definition panic {S A} (msg : string) : M S A := λ s, Panic msg s.

(** The state in which a run ended, whatever the way it ended. *)
Definition final {S A} (o : outcome S A) : S :=
  match o with Done _ s | Exit s | Panic _ s => s end.

(** Go's [error] values, by their message. *)
Definition error : Type := string.
Definition errors_New (msg : string) : error := msg.

(* ===================================================================== *)
(** ** config.go: the cipher and HSM registry                             *)
(* ===================================================================== *)

Module Registry.
Import GoStrings.

(** Modelled from the spec: the result of a provider's describe-self
    operation, [Info() -> {name, fileExtension}]; the declaration of
    [cipherInfo] is not part of the two files embedded here. *)
Record cipherInfo : Type := { Name : string; Extension : string }.

(** Modelled from the spec: the Cipher Provider contract. A value of the
    interface is a pointer to an instance; [cipher_ptr] is its address,
    so that two instances of one provider are told apart, and
    [GetInfo] is what the instance reports about itself. *)
Record cipherInterface : Type :=
  { cipher_ptr : nat; GetInfo : cipherInfo }.

(** Modelled from the spec: the HSM Provider contract,
    [New() -> freshInstance] and [Cipher() -> CipherProvider]. *)
Record HSMInterface : Type :=
  { hsm_ptr : nat; Cipher : cipherInterface }.

#[export] Instance cipherInfo_eq_dec : EqDecision cipherInfo.
Proof. solve_decision. Defined.
#[export] Instance cipherInterface_eq_dec : EqDecision cipherInterface.
Proof. solve_decision. Defined.
#[export] Instance HSMInterface_eq_dec : EqDecision HSMInterface.
Proof. solve_decision. Defined.

(** The fields of [config] that the registry reads or writes. A Go map
    that was never made is [None]. *)
Record config : Type := mkConfig {
  Debug : bool;
  HSM : string;
  Ciphers : list string;
  availableCiphers : option (gmap string cipherInterface);
  enabledCiphers : option (gmap string cipherInterface);
  availableHSMs : option (gmap string HSMInterface);
  authHSM : option HSMInterface;
  tlsHSM : option HSMInterface;
}.

(** The process state the registry works on: the global [conf], the next
    free address of the allocator, the lines written through [log] and
    the notices passed to [status.Log]. *)
Record world : Type := mkWorld {
  conf : config;
  heap : nat;
  logged : list string;
  notices : list string;
}.

Definition set_conf (f : config → config) : M world unit :=
  modify (λ w, mkWorld (f (conf w)) (heap w) (logged w) (notices w)).

Definition get_conf : M world config := w ← get; mret (conf w).

Definition with_availableCiphers (m : option (gmap string cipherInterface))
    (c : config) : config :=
  mkConfig (Debug c) (HSM c) (Ciphers c) m (enabledCiphers c)
           (availableHSMs c) (authHSM c) (tlsHSM c).

Definition with_enabledCiphers (m : option (gmap string cipherInterface))
    (c : config) : config :=
  mkConfig (Debug c) (HSM c) (Ciphers c) (availableCiphers c) m
           (availableHSMs c) (authHSM c) (tlsHSM c).

Definition with_availableHSMs (m : option (gmap string HSMInterface))
    (c : config) : config :=
  mkConfig (Debug c) (HSM c) (Ciphers c) (availableCiphers c)
           (enabledCiphers c) m (authHSM c) (tlsHSM c).

Definition with_authHSM (h : option HSMInterface) (c : config) : config :=
  mkConfig (Debug c) (HSM c) (Ciphers c) (availableCiphers c)
           (enabledCiphers c) (availableHSMs c) h (tlsHSM c).

Definition with_tlsHSM (h : option HSMInterface) (c : config) : config :=
  mkConfig (Debug c) (HSM c) (Ciphers c) (availableCiphers c)
           (enabledCiphers c) (availableHSMs c) (authHSM c) h.

(** Reading a Go map: a nil map reads as the empty one. *)
Definition map_get {V} (m : option (gmap string V)) (k : string) : option V :=
  match m with Some m => m !! k | None => None end.

(** [log.Println], [log.Printf]: one line each. *)
Definition log_Print (line : string) : M world unit :=
  modify (λ w, mkWorld (conf w) (heap w) (logged w ++ [line]) (notices w)).

(** [log.Fatal]: print, then [os.Exit(1)]. *)
Definition log_Fatal {A} (line : string) : M world A :=
  log_Print line;; exit.

(** [status.Log(syslog.LOG_NOTICE, ...)]: the notice is recorded. *)
Definition status_Log (line : string) : M world unit :=
  modify (λ w, mkWorld (conf w) (heap w) (logged w) (notices w ++ [line])).

(** Modelled from the spec: [New() -> freshInstance] of a cipher
    provider. The new instance lives at an address never handed out
    before and describes itself as the provider it was made from. *)
Definition cipher_New (c : cipherInterface) : M world cipherInterface :=
  λ w, Done {| cipher_ptr := heap w; GetInfo := GetInfo c |}
            (mkWorld (conf w) (S (heap w)) (logged w) (notices w)).

(** Modelled from the spec: [New() -> freshInstance] of an HSM provider. *)
Definition HSM_New (h : HSMInterface) : M world HSMInterface :=
  λ w, Done {| hsm_ptr := heap w; Cipher := Cipher h |}
            (mkWorld (conf w) (S (heap w)) (logged w) (notices w)).

(** Go leaves the order in which [range] visits a map unspecified: the
    order is a parameter, any arrangement of the map's entries. *)
Class MapRange : Type := {
  range : ∀ {V : Type}, gmap string V → list (string * V);
  range_perm : ∀ (V : Type) (m : gmap string V), range m ≡ₚ map_to_list m;
}.

(** One admissible order: the one of [map_to_list]. *)
Definition range_default : MapRange :=
  {| range := λ V m, map_to_list m; range_perm := λ V m, reflexivity _ |}.

Definition range_opt `{MapRange} {V} (m : option (gmap string V))
  : list (string * V) :=
  match m with Some m => range m | None => [] end.

Definition tab : string := String (ascii_of_nat 9) "".

Section Operations.
Context `{MapRange}.

Definition SetAvailableCipher (cipher : cipherInterface) : M world unit :=
  c ← get_conf;
  (if availableCiphers c is None
   then set_conf (with_availableCiphers (Some ∅)) else mret tt);;
  c ← get_conf;
  match availableCiphers c with
  | Some m =>
      set_conf (with_availableCiphers
                  (Some (<[Name (GetInfo cipher) := cipher]> m)))
  | None => panic "assignment to entry in nil map"
  end.

Definition SetAvailableHSM (model : string) (HSM : HSMInterface)
  : M world unit :=
  c ← get_conf;
  (if availableHSMs c is None
   then set_conf (with_availableHSMs (Some ∅)) else mret tt);;
  c ← get_conf;
  match availableHSMs c with
  | Some m => set_conf (with_availableHSMs (Some (<[model := HSM]> m)))
  | None => panic "assignment to entry in nil map"
  end.

(** The result of a lookup: the instance, or the error. *)
Definition GetAvailableCipher (cipherName : string)
  : M world (cipherInterface + error) :=
  c ← get_conf;
  match map_get (availableCiphers c) cipherName with
  | None => mret (inr (errors_New "invalid cipher"))
  | Some cipher =>
      (* get a fresh instance *)
      cipher ← cipher_New cipher;
      mret (inl cipher)
  end.

Definition GetCipher (cipherName : string)
  : M world (cipherInterface + error) :=
  c ← get_conf;
  match map_get (enabledCiphers c) cipherName with
  | None => mret (inr (errors_New "invalid cipher"))
  | Some cipher =>
      (* get a fresh instance *)
      cipher ← cipher_New cipher;
      mret (inl cipher)
  end.

(** The body of the [range] loop of [GetCipherByExt]. *)
Fixpoint by_ext (ext : string) (l : list (string * cipherInterface))
  : cipherInterface + error :=
  match l with
  | [] => inr (errors_New "invalid cipher")
  | (_, val) :: l' =>
      if decide (Extension (GetInfo val) = ext) then inl val
      else by_ext ext l'
  end.

Definition GetCipherByExt (ext : string)
  : M world (cipherInterface + error) :=
  c ← get_conf;
  mret (by_ext ext (range_opt (enabledCiphers c))).

Definition PrintAvailableCiphers : M world unit :=
  log_Print "supported ciphers:";;
  c ← get_conf;
  foldr (λ k rest, log_Print (tab ++ k);; rest) (mret tt)
        (fst <$> range_opt (availableCiphers c)).

(** [c.enabledCiphers[k] = v]: assigning into a nil map panics. *)
Definition assign_enabled (k : string) (v : cipherInterface)
  : M world unit :=
  c ← get_conf;
  match enabledCiphers c with
  | Some m => set_conf (with_enabledCiphers (Some (<[k := v]> m)))
  | None => panic "assignment to entry in nil map"
  end.

(** The [for] loop of [EnableCiphers], from index [i] on: [names] are
    the entries of [c.Ciphers] still to visit. *)
Fixpoint enable_from (names : list string) : M world (option error) :=
  match names with
  | [] => mret None
  | name :: names' =>
      c ← get_conf;
      match map_get (availableCiphers c) name with
      | Some val => assign_enabled name val;; enable_from names'
      | None =>
          PrintAvailableCiphers;;
          mret (Some ("unsupported cipher name " ++ name))
      end
  end.

Definition EnableCiphers : M world (option error) :=
  c ← get_conf;
  (if enabledCiphers c is None
   then set_conf (with_enabledCiphers (Some ∅)) else mret tt);;
  c ← get_conf;
  if decide (length (Ciphers c) = 0) then
    PrintAvailableCiphers;;
    mret (Some (errors_New "missing cipher specification"))
  else enable_from (Ciphers c).

(** The [switch] on one option of the HSM directive. *)
Definition hsm_option (HSM : HSMInterface) (o : string) : M world unit :=
  if decide (o = "luks") then set_conf (with_authHSM (Some HSM))
  else if decide (o = "tls") then set_conf (with_tlsHSM (Some HSM))
  else if decide (o = "cipher") then
    let cipher := Cipher HSM in
    SetAvailableCipher cipher;;
    assign_enabled (Name (GetInfo cipher)) cipher
  else log_Fatal "invalid hsm option".

(** The [for] loop of [EnableHSM] over the options. *)
Fixpoint hsm_options (HSM : HSMInterface) (options : list string)
  : M world unit :=
  match options with
  | [] => mret tt
  | o :: options' => hsm_option HSM o;; hsm_options HSM options'
  end.

Definition EnableHSM : M world (option error) :=
  c ← get_conf;
  if decide (HSM c = "off") then mret None else
  let HSMConf := Split (HSM c) ":" in
  (if decide (length HSMConf < 2)
   then log_Fatal "invalid hsm configuration directive" else mret tt);;
  let model := nth 0 HSMConf "" in
  match map_get (availableHSMs c) model with
  | Some val =>
      let options := Split (nth 1 HSMConf "") "," in
      status_Log ("enabling " ++ model ++ " HSM ["
                    ++ Join options " " ++ "]");;
      HSM ← HSM_New val;
      hsm_options HSM options;;
      mret None
  | None => log_Fatal "invalid hsm model"
  end.

End Operations.

End Registry.

(* ===================================================================== *)
(** ** net/http, as far as the program uses it                            *)
(* ===================================================================== *)

Module Http.

(** [http.Header], a [map[string][]string]. *)
Definition Header : Type := gmap string (list string).

(** [h.Set(key, value)]: the entry becomes the single [value]. The keys
    the program sets are already in canonical form. *)
Definition Header_Set (key value : string) (h : Header) : Header :=
  <[key := [value]]> h.

Definition Header_Del (key : string) (h : Header) : Header := delete key h.

(** [*http.Request], the fields the program reads. *)
Record Request : Type := {
  RemoteAddr : string;
  Method : string;
  RequestURI : string;
  ReqHeader : Header;
}.

(** The interface [http.ResponseWriter]. [Header()] hands out the header
    map itself, so the caller's [Set] is seen by the writer: [Header]
    reads the map and [on_Header] is a change made through it. *)
Class ResponseWriter (W : Type) : Type := {
  Header_of : W → Header;
  on_Header : (Header → Header) → W → W;
  Write : string → W → W * (Z * option error);
  WriteHeader : Z → W → W;
}.

(** A response as the transport sees it: its header map, the status line
    once it is written, and the chunks of body bytes in the order they
    reached the network. *)
Record response : Type := mkResponse {
  headers : Header;
  status : option Z;
  body : list string;
}.

Definition StatusOK : Z := 200.

(** The server's own writer: the first [WriteHeader] fixes the status, a
    [Write] before any [WriteHeader] sends [200 OK] first. *)
#[export] Instance response_writer : ResponseWriter response := {|
  Header_of w := headers w;
  on_Header f w := mkResponse (f (headers w)) (status w) (body w);
  Write b w :=
    (mkResponse (headers w)
                (Some (default StatusOK (status w)))
                (body w ++ [b]),
     (Z.of_nat (String.length b), None));
  WriteHeader i w :=
    mkResponse (headers w)
               (Some (default i (status w)))
               (body w);
|}.

(** [http.Handler]: code that serves a request on whatever writer it is
    handed. *)
Definition Handler : Type :=
  ∀ (W : Type), ResponseWriter W → W → Request → W.

(** [http.Error(w, error, code)]. *)
Definition Error `{ResponseWriter W} (error : string) (code : Z) (w : W) : W :=
  let w := on_Header (Header_Del "Content-Length") w in
  let w := on_Header (Header_Set "Content-Type" "text/plain; charset=utf-8") w in
  let w := on_Header (Header_Set "X-Content-Type-Options" "nosniff") w in
  let w := WriteHeader code w in
  fst (Write (error ++ String (ascii_of_nat 10) "") w).

End Http.

(* ===================================================================== *)
(** ** api.go: the nonce-injecting response wrapper                       *)
(* ===================================================================== *)

Module Wrapper.
Import GoStrings Http.

Record ResponseNoncer (W : Type) : Type := mkResponseNoncer {
  w : W;
  nonce : string;
}.
Arguments mkResponseNoncer {W} w nonce.
Arguments w {W} r.
Arguments nonce {W} r.

Definition nonceSize : nat := 32.

Definition nonceToken : string := "{{ nonce }}".

Definition NewResponseNoncer {W} (w : W) (nonce : string)
  : ResponseNoncer W := mkResponseNoncer w nonce.

(** The three methods of [*ResponseNoncer]. *)
#[export] Instance noncer_writer `{ResponseWriter W}
  : ResponseWriter (ResponseNoncer W) := {|
  Header_of r := Header_of (w r);
  on_Header f r := mkResponseNoncer (on_Header f (w r)) (nonce r);
  Write b r :=
    let noncedString := ReplaceAll b nonceToken (nonce r) in
    let '(w', res) := Write noncedString (w r) in
    (mkResponseNoncer w' (nonce r), res);
  WriteHeader i r := mkResponseNoncer (WriteHeader i (w r)) (nonce r);
|}.

(** The value of the Content-Security-Policy header for a nonce. *)
Definition csp (nonce : string) : string :=
  "default-src 'none'; script-src 'strict-dynamic' 'nonce-" ++ nonce
    ++ "' 'unsafe-eval'; style-src 'self' 'unsafe-inline'; img-src 'self'; connect-src 'self';".

Section ApplyHeaders.
(** [encodedRandomString(size, URLSafe)] is defined in another file of
    the program: it is a parameter, drawing from a source of
    randomness [R] and returning the string and the error. *)
Context {R : Type}.
Variable encodedRandomString :
  nat → bool → R → (string * option error) * R.

Definition applyHeaders (h : Handler) `{ResponseWriter W}
    (w0 : W) (r : Request) (rnd : R) : W * R :=
  let '((nonce, err), rnd) := encodedRandomString nonceSize false rnd in
  let _ := match err with
           | Some _ => Some (errors_New "can't generate a new nonce")
           | None => None
           end in
  let w0 := on_Header (Header_Set "Content-Security-Policy" (csp nonce)) w0 in
  let w0 := on_Header (Header_Set "Cache-Control"
                         "no-cache, no-store, max-age=0, must-revalidate") w0 in
  let w0 := on_Header (Header_Set "Pragma" "no-cache") w0 in
  let w0 := on_Header (Header_Set "Expires" "Fri, 07 Jan 1981 00:00:00 GMT") w0 in
  let noncer := NewResponseNoncer w0 nonce in
  (w (h _ _ noncer r), rnd).

End ApplyHeaders.

End Wrapper.

(* ===================================================================== *)
(** ** The compiled pattern [URIPattern]                                  *)
(* ===================================================================== *)

Module GoRegexp.
Import GoStrings.

(** The pieces a pattern such as [URIPattern] is a sequence of: literal
    text, and a capturing group around one or more bytes of a class. *)
Inductive piece : Type :=
| Lit (s : string)
| GroupPlus (class : ascii → bool).

Fixpoint take_bytes (n : nat) (s : string) : string :=
  match n, s with
  | S k, String c s' => String c (take_bytes k s')
  | _, _ => EmptyString
  end.

(** The length of the longest prefix of [s] inside the class. *)
Fixpoint run_length (class : ascii → bool) (s : string) : nat :=
  match s with
  | String c s' => if class c then S (run_length class s') else 0
  | EmptyString => 0
  end.

(** Match the pieces at the start of [s], the way a backtracking matcher
    does: a group first takes the longest run and gives bytes back one at
    a time while the rest fails. The result is the matched text and the
    captures. *)
Fixpoint match_here (ps : list piece) (s : string)
  : option (string * list string) :=
  match ps with
  | [] => Some ("", [])
  | Lit l :: ps' =>
      if HasPrefix s l then
        match match_here ps' (drop_bytes (String.length l) s) with
        | Some (m, caps) => Some (l ++ m, caps)
        | None => None
        end
      else None
  | GroupPlus class :: ps' =>
      (fix give_back (k : nat) : option (string * list string) :=
         match k with
         | O => None
         | S k' =>
             match match_here ps' (drop_bytes k s) with
             | Some (m, caps) =>
                 Some (take_bytes k s ++ m, take_bytes k s :: caps)
             | None => give_back k'
             end
         end) (run_length class s)
  end.

(** [re.FindStringSubmatch(s)]: the leftmost match, as the slice of the
    matched text followed by the captures; the nil slice when the pattern
    matches nowhere. *)
Fixpoint FindStringSubmatch (re : list piece) (s : string) : list string :=
  match match_here re s with
  | Some (m, caps) => m :: caps
  | None =>
      match s with
      | EmptyString => []
      | String _ s' => FindStringSubmatch re s'
      end
  end.

Definition between (lo hi c : ascii) : bool :=
  (nat_of_ascii lo <=? nat_of_ascii c)%nat
  && (nat_of_ascii c <=? nat_of_ascii hi)%nat.

(** [[A-Za-z0-9]] *)
Definition alnum (c : ascii) : bool :=
  between "A" "Z" c || between "a" "z" c || between "0" "9" c.

(** [[a-z0-9_]] *)
Definition lower_digit_underscore (c : ascii) : bool :=
  between "a" "z" c || between "0" "9" c || Ascii.eqb c "_".

End GoRegexp.

(* ===================================================================== *)
(** ** api.go: the API dispatcher                                         *)
(* ===================================================================== *)

Module Api.
Import GoStrings GoRegexp Http Registry.

(** [regexp.MustCompile("/api/([A-Za-z0-9]+)/([a-z0-9_]+)")] *)
Definition URIPattern : list piece :=
  [Lit "/api/"; GroupPlus alnum; Lit "/"; GroupPlus lower_digit_underscore].

(** The [interface{}] values the dispatcher itself puts into a
    [jsonObject], and whatever else a handler puts there. *)
Inductive value : Type :=
| nil_value
| string_value (s : string)
| strings_value (l : list string)
| other_value (encoded : string).

(** [jsonObject] is a [map[string]interface{}]; [None] is the nil map. *)
Definition jsonObject : Type := option (gmap string value).

(** [*url.URL], the fields the program reads, and [url.Values]. *)
Record URL : Type := { Path : string; RawQuery : string }.
Definition Values : Type := gmap string (list string).

(** The third argument of [passwordRequest]. *)
Inductive luksMode : Type := _change | _add | _remove.

(** The handlers bound in the fixed command table of [handleRequest]. *)
Inductive command : Type :=
| logout | poweroff | passwordRequest (mode : luksMode) | setTime
| fileList | fileUpload | fileDownload | fileDelete | fileMove | fileCopy
| fileMkdir | fileExtract | fileCompress | fileEncrypt | fileDecrypt
| fileSign | fileVerify | ciphers | keys | genKey | uploadKey | keyInfo
| versionStatus | runningStatus.

(** What a request is served on: the registry's process state, the
    response writer [w] of this request, and the state [E] of the
    collaborators (session store, file system, ...). *)
Record state (E : Type) : Type := mkState {
  reg : world;
  resp : response;
  env : E;
}.
Arguments mkState {E} reg resp env.
Arguments reg {E} s.
Arguments resp {E} s.
Arguments env {E} s.

(** The functions of the program and of Go's library that the dispatcher
    calls and that are defined outside [api.go] and [config.go]. A
    handler gets the writer and the request, and may do anything to the
    state. [url_Parse] fails with [None]; the error of [url.ParseQuery]
    is dropped by the caller and its map is never nil. [serve fileUpload]
    stands for [fileUpload(w, r)], which returns nothing. *)
Class Collaborators (E : Type) : Type := {
  jsonObject_String : jsonObject → string;
  url_Parse : string → option URL;
  url_ParseQuery : string → Values;
  session_Validate : Request → M (state E) (bool * bool * option error);
  login : Request → M (state E) jsonObject;
  refresh : M (state E) jsonObject;
  serve : command → Request → M (state E) jsonObject;
  fileDownloadByID : string → M (state E) unit;
  HandleRequest : cipherInterface → Request → M (state E) jsonObject;
}.

(** [switch x { case k: ... }] over string constants: the first case
    equal to [x]. *)
Fixpoint switch {A} (x : string) (cases : list (string * A)) : option A :=
  match cases with
  | [] => None
  | (k, a) :: cases' => if decide (x = k) then Some a else switch x cases'
  end.

Definition commandTable : list (string * command) :=
  [ ("/api/auth/logout", logout);
    ("/api/auth/poweroff", poweroff);
    ("/api/luks/change", passwordRequest _change);
    ("/api/luks/add", passwordRequest _add);
    ("/api/luks/remove", passwordRequest _remove);
    ("/api/config/time", setTime);
    ("/api/file/list", fileList);
    ("/api/file/upload", fileUpload);
    ("/api/file/download", fileDownload);
    ("/api/file/delete", fileDelete);
    ("/api/file/move", fileMove);
    ("/api/file/copy", fileCopy);
    ("/api/file/mkdir", fileMkdir);
    ("/api/file/extract", fileExtract);
    ("/api/file/compress", fileCompress);
    ("/api/file/encrypt", fileEncrypt);
    ("/api/file/decrypt", fileDecrypt);
    ("/api/file/sign", fileSign);
    ("/api/file/verify", fileVerify);
    ("/api/crypto/ciphers", ciphers);
    ("/api/crypto/keys", keys);
    ("/api/crypto/gen_key", genKey);
    ("/api/crypto/upload_key", uploadKey);
    ("/api/crypto/key_info", keyInfo);
    ("/api/status/version", versionStatus);
    ("/api/status/running", runningStatus) ].

(** [jsonObject{"status": "INVALID_SESSION", "response": nil}] *)
Definition invalidSession : jsonObject :=
  Some (<["status" := string_value "INVALID_SESSION"]>
          (<["response" := nil_value]> ∅)).

Section Dispatch.
Context {E : Type} `{Collaborators E}.

(** A registry operation run on the dispatcher's state. *)
Definition liftR {A} (m : M world A) : M (state E) A := λ s,
  match m (reg s) with
  | Done a w => Done a (mkState w (resp s) (env s))
  | Exit w => Exit (mkState w (resp s) (env s))
  | Panic msg w => Panic msg (mkState w (resp s) (env s))
  end.

(** A call on the response writer [w]. *)
Definition on_w (f : response → response) : M (state E) unit :=
  modify (λ s, mkState (reg s) (f (resp s)) (env s)).

(** [fmt.Fprint(w, s)] *)
Definition fmt_Fprint (s : string) : M (state E) unit :=
  on_w (λ w, fst (Write s w)).

Definition notFound : jsonObject :=
  Some (<["status" := string_value "INVALID"]>
          (<["response" := strings_value ["invalid method"]]> ∅)).

(** [log.Printf] is given the rendered result as its format; the line
    recorded is that string. *)
Definition sendResponse (res : jsonObject) : M (state E) unit :=
  c ← liftR get_conf;
  (if Debug c then liftR (log_Print (jsonObject_String res))
   else mret tt);;
  fmt_Fprint (jsonObject_String res).

Definition errorResponse (err : error) (statusCode : string)
  : M (state E) jsonObject :=
  liftR (status_Log err);;
  let statusCode := if decide (statusCode = "") then "KO" else statusCode in
  mret (Some (<["status" := string_value statusCode]>
                (<["response" := strings_value [err]]> ∅))).

Definition handleRequest (r : Request) : M (state E) unit :=
  res ← match switch (RequestURI r) commandTable with
        | Some fileUpload => serve fileUpload r;; mret None
        | Some cmd => serve cmd r
        | None =>
            let m := FindStringSubmatch URIPattern (RequestURI r) in
            if decide (length m = 3) then
              found ← liftR (GetAvailableCipher (nth 1 m ""));
              match found with
              | inr err => mret notFound
              | inl cipher => HandleRequest cipher r
              end
            else mret notFound
        end;
  if res is Some _ then sendResponse res else mret tt.

Definition apiHandler (r : Request) : M (state E) unit :=
  c ← liftR get_conf;
  (if Debug c
   then liftR (log_Print (RemoteAddr r ++ " " ++ Method r ++ " "
                            ++ RequestURI r))
   else mret tt);;
  on_w (on_Header (Header_Set "Content-Type" "application/json"));;
  if decide (RequestURI r = "/api/auth/login") then
    res ← login r; sendResponse res
  else if decide (RequestURI r = "/api/auth/refresh") then
    '(validSessionID, _, _) ← session_Validate r;
    if validSessionID : bool then res ← refresh; sendResponse res
    else sendResponse invalidSession
  else
    '(validSessionID, validXSRFToken, err) ← session_Validate r;
    if negb (validSessionID && validXSRFToken) then
      match url_Parse (RequestURI r) with
      | None => panic "invalid memory address or nil pointer dereference"
      | Some u =>
          if decide (Path u = "/api/file/upload") then
            match err with
            | Some err => on_w (Http.Error err 401)
            | None =>
                panic "invalid memory address or nil pointer dereference"
            end
          else if decide (Path u = "/api/file/download") then
            (* download is an exception as it is already protected
               from XSRF with its own unique handshake *)
            if validSessionID : bool then
              let p := url_ParseQuery (RawQuery u) in
              match default [] (p !! "id") with
              | id :: _ => fileDownloadByID id
              | [] => panic "index out of range [0] with length 0"
              end
            else (* fallthrough *) sendResponse invalidSession
          else sendResponse invalidSession
      end
    else if validSessionID && validXSRFToken then handleRequest r
    else sendResponse invalidSession.

End Dispatch.

End Api.

(* ===================================================================== *)
(** ** Concrete registries and requests, used to exercise the theorems    *)
(* ===================================================================== *)

Module Examples.
Import GoStrings Http Registry Wrapper Api.

Definition aes : cipherInterface :=
  {| cipher_ptr := 0;
     GetInfo := {| Name := "AES-256-OFB"; Extension := "aes256ofb" |} |}.

Definition pgp : cipherInterface :=
  {| cipher_ptr := 1;
     GetInfo := {| Name := "OpenPGP"; Extension := "pgp" |} |}.

Definition totp : cipherInterface :=
  {| cipher_ptr := 2;
     GetInfo := {| Name := "TOTP"; Extension := "totp" |} |}.

Definition scc_cipher : cipherInterface :=
  {| cipher_ptr := 3;
     GetInfo := {| Name := "AES-256-SCC"; Extension := "aes256scc" |} |}.

Definition scc : HSMInterface := {| hsm_ptr := 4; Cipher := scc_cipher |}.

(** The three software ciphers and one HSM registered, nothing enabled
    yet. *)
Definition registered (ciphers : list string) (hsm : string) : world :=
  mkWorld
    (mkConfig false hsm ciphers
       (Some (<["AES-256-OFB" := aes]>
                (<["OpenPGP" := pgp]> (<["TOTP" := totp]> ∅))))
       None
       (Some (<["mxc-scc2" := scc]> ∅))
       None None)
    5 [] [].

(** A process that has just started: no map made, nothing allocated. *)
Definition started (ciphers : list string) (hsm : string) : world :=
  mkWorld (mkConfig false hsm ciphers None None None None None) 0 [] [].

(** A server with two of the three available ciphers enabled. *)
Definition serving : world :=
  final (@EnableCiphers range_default
           (registered ["AES-256-OFB"; "TOTP"] "off")).

(** A handler that writes two chunks with the placeholder in them, two
    nonce generators, one of them failing, and a request. *)
Definition page : Handler := λ W _ w0 r,
  let w1 := fst (Write "<script nonce='{{ nonce }}'>" w0) in
  fst (Write "a{{ nonce }}b{{ nonce }}" w1).
Definition fixed_nonce
  : nat → bool → unit → (string * option error) * unit :=
  λ _ _ _, (("Tm9uY2U=", None), tt).
Definition failing_nonce
  : nat → bool → unit → (string * option error) * unit :=
  λ _ _ _, (("", Some "unexpected EOF"), tt).
Definition get_index : Request :=
  {| RemoteAddr := "10.0.0.2:4711"; Method := "GET";
     RequestURI := "/index.html"; ReqHeader := ∅ |}.
Definition unwritten : response := mkResponse ∅ None [].

(** The response to [get_index] served by [page] behind the wrapper. *)
Definition static (gen : nat → bool → unit → (string * option error) * unit)
  : response :=
  fst (applyHeaders gen page unwritten get_index tt).

(** Collaborators that keep a journal of the calls they get. *)
Definition journal (entry : string) : M (state (list string)) unit :=
  modify (λ s, mkState (reg s) (resp s) (env s ++ [entry])%list).

Definition ok : jsonObject :=
  Some (<["status" := string_value "OK"]> (<["response" := nil_value]> ∅)).

Definition render (res : jsonObject) : string :=
  match res with
  | None => "null"
  | Some m =>
      match m !! "status" with
      | Some (string_value s) => "status=" ++ s
      | _ => "status?"
      end
  end.

Definition parse_url (uri : string) : option URL :=
  let pieces := Split uri "?" in
  Some {| Path := nth 0 pieces ""; RawQuery := Join (tail pieces) "?" |}.

Definition parse_query (q : string) : Values :=
  foldl (λ m kv,
           let p := Split kv "=" in
           let k := nth 0 p "" in
           if decide (kv = "") then m
           else <[k := (default [] (m !! k) ++ [Join (tail p) "="])%list]> m)
        ∅ (Split q "&").

Definition validate (r : Request)
  : M (state (list string)) (bool * bool * option error) :=
  let session :=
    bool_decide (ReqHeader r !! "Cookie" = Some ["INTERLOCK-Token=5e55"]) in
  let xsrf := bool_decide (ReqHeader r !! "X-Xsrftoken" = Some ["70c3"]) in
  mret (session, session && xsrf,
        if session then if xsrf then None else Some "missing XSRFToken"
        else Some "invalid session").

Definition journalling : Collaborators (list string) := {|
  jsonObject_String := render;
  url_Parse := parse_url;
  url_ParseQuery := parse_query;
  session_Validate := validate;
  login r := journal "login";; mret ok;
  refresh := journal "refresh";; mret ok;
  serve cmd r := journal "serve";; mret ok;
  fileDownloadByID id := journal ("fileDownloadByID " ++ id);
  HandleRequest cipher r :=
    journal ("HandleRequest " ++ Name (GetInfo cipher));; mret ok;
|}.

Definition request (uri : string) (hdr : list (string * list string))
  : Request :=
  {| RemoteAddr := "10.0.0.2:4711"; Method := "POST"; RequestURI := uri;
     ReqHeader := list_to_map hdr |}.

Definition cookie : string * list string :=
  ("Cookie", ["INTERLOCK-Token=5e55"]).
Definition xsrf : string * list string := ("X-Xsrftoken", ["70c3"]).

Definition authenticated (uri : string) : Request :=
  request uri [cookie; xsrf].
Definition session_only (uri : string) : Request := request uri [cookie].
Definition token_only (uri : string) : Request := request uri [xsrf].

(** A server between two requests, debugging off. *)
Definition idle : state (list string) :=
  mkState serving unwritten [].

(** The run of [apiHandler] on a request that reaches the idle server. *)
Definition handle (r : Request) : outcome (state (list string)) unit :=
  @apiHandler _ journalling r idle.

End Examples.

(* ===================================================================== *)
(** ** config.go: toggling the enabled ciphers                            *)
(* ===================================================================== *)

Module Activation.
Import Registry.

Section ActivateCiphers.
Context `{MapRange} {P : Type}.

(** What the loop runs on: the process state of the registry and the
    state [P] of the providers themselves, whatever it is. *)
Definition on_world {A} (m : M world A) : M (world * P) A := λ s,
  match m s.1 with
  | Done a w => Done a (w, s.2)
  | Exit w => Exit (w, s.2)
  | Panic msg w => Panic msg (w, s.2)
  end.

(** Modelled from the spec: [Activate(on bool) -> error] of the Cipher
    Provider contract, declared outside [config.go]. The provider may do
    anything to its own state and to the process state, and need not
    return; what it does is a parameter. *)
Variable Activate : cipherInterface → bool → M (world * P) (option error).

(** The [range] loop of [ActivateCiphers] over the entries still to be
    visited: an error is logged and the loop goes on. The entries are those
    of the map when the loop starts; a provider that writes the enabled map
    under the loop is outside this model. *)
Fixpoint activate_each (activate : bool) (l : list (string * cipherInterface))
  : M (world * P) unit :=
  match l with
  | [] => mret tt
  | (_, val) :: l' =>
      err ← Activate val activate;
      (match err with
       | Some err => on_world (log_Print err)
       | None => mret tt
       end);;
      activate_each activate l'
  end.

Definition ActivateCiphers (activate : bool) : M (world * P) unit :=
  c ← on_world get_conf;
  activate_each activate (range_opt (enabledCiphers c)).

End ActivateCiphers.

End Activation.

(* ===================================================================== *)
(** ** config.go: the defaults                                            *)
(* ===================================================================== *)

Module Settings.
Import Registry.

(** The fields of [config] that the registry does not touch; [logFile] is
    left out, nothing embedded here reads it. *)
Record settings : Type := mkSettings {
  StaticPath : string;
  SetTime : bool;
  BindAddress : string;
  TLS : string;
  TLSCert : string;
  TLSKey : string;
  TLSClientCA : string;
  KeyPath : string;
  VolumeGroup : string;
  mountPoint : string;
  testMode : bool;
}.

(** [SetDefaults] on the two halves of [conf]: the maps, the HSM bindings,
    [BindAddress], [TLSClientCA] and [mountPoint] are left as they are. *)
Definition SetDefaults (c : config) (o : settings) : config * settings :=
  (mkConfig false "off" ["OpenPGP"; "AES-256-OFB"; "TOTP"]
     (availableCiphers c) (enabledCiphers c) (availableHSMs c)
     (authHSM c) (tlsHSM c),
   mkSettings "static" false (BindAddress o) "on" "certs/cert.pem"
     "certs/key.pem" (TLSClientCA o) "keys" "lvmvolume" (mountPoint o)
     false).

End Settings.

(* ===================================================================== *)
(** ** The Go [strconv] package, as far as the program uses it            *)
(* ===================================================================== *)

Module GoStrconv.

(** The two errors of [strconv]: [ErrSyntax] and [ErrRange]. *)
Inductive NumError : Type := ErrSyntax | ErrRange.

Definition maxUint64 : N := 18446744073709551615.
Definition maxInt64 : Z := 9223372036854775807.
Definition minInt64 : Z := -9223372036854775808.

(** The value of a decimal digit. *)
Definition digit_of (c : ascii) : option N :=
  let n := N_of_ascii c in
  if ((48 <=? n) && (n <=? 57))%N then Some (n - 48)%N else None.

(** The loop of [ParseUint(s, 10, 64)], with [n] the value read so far: it
    stops at the first byte that is no digit, and at the first digit that
    takes the value out of 64 bits. *)
Fixpoint ParseUint_from (s : string) (n : N) : N * option NumError :=
  match s with
  | EmptyString => (n, None)
  | String c s' =>
      match digit_of c with
      | None => (0%N, Some ErrSyntax)
      | Some d =>
          if (maxUint64 / 10 + 1 <=? n)%N then (maxUint64, Some ErrRange)
          else
            let n1 := (n * 10 + d)%N in
            if (maxUint64 <? n1)%N then (maxUint64, Some ErrRange)
            else ParseUint_from s' n1
      end
  end.

(** [strconv.ParseUint(s, 10, 64)] *)
Definition ParseUint (s : string) : N * option NumError :=
  match s with
  | EmptyString => (0%N, Some ErrSyntax)
  | _ => ParseUint_from s 0
  end.

(** [strconv.ParseInt(s, 10, 64)]: the value comes with the error; it is 0
    on a syntax error and the nearest bound on a range error. *)
Definition ParseInt (s : string) : Z * option NumError :=
  match s with
  | EmptyString => (0%Z, Some ErrSyntax)
  | String c s' =>
      let neg := Ascii.eqb c "-" in
      let digits := if Ascii.eqb c "+" || neg then s' else s in
      match ParseUint digits with
      | (_, Some ErrSyntax) => (0%Z, Some ErrSyntax)
      | (un, _) =>
          let cutoff := 9223372036854775808%N in
          if negb neg && (cutoff <=? un)%N then (maxInt64, Some ErrRange)
          else if neg && (cutoff <? un)%N then (minInt64, Some ErrRange)
          else ((if neg then - Z.of_N un else Z.of_N un)%Z, None)
      end
  end.

(** The decimal digits of [n], most significant first, put before [acc];
    [fuel] bounds the number of digits after the first. *)
Fixpoint FormatUint_go (fuel : nat) (n : N) (acc : string) : string :=
  let acc := String (ascii_of_N (48 + n mod 10)) acc in
  match fuel with
  | O => acc
  | S fuel' => if (n <? 10)%N then acc else FormatUint_go fuel' (n / 10) acc
  end.

(** [strconv.FormatUint(n, 10)]; a number has no more decimal digits than
    binary ones. *)
Definition FormatUint (n : N) : string :=
  FormatUint_go (N.to_nat (N.log2 n)) n "".

(** [strconv.FormatInt(i, 10)] *)
Definition FormatInt (i : Z) : string :=
  match i with
  | Zneg p => "-" ++ FormatUint (Npos p)
  | _ => FormatUint (Z.to_N i)
  end.

End GoStrconv.

(* ===================================================================== *)
(** ** config.go: setting the clock                                       *)
(* ===================================================================== *)

Module TimeApi.
Import GoStrings Http Registry Api GoStrconv Settings.

(** What [setTime] can tell about a member of the decoded request: it is a
    [json.Number], the text of a number, or it is something else. *)
Inductive member : Type :=
| json_Number (text : string)
| other_member.

(** The decoded request, a [jsonObject]; [None] is the nil map. *)
Definition requestObject : Type := option (gmap string member).

(** [json.Number.Int64]: [strconv.ParseInt(string(n), 10, 64)]. *)
Definition Int64 (n : string) : Z * option NumError := ParseInt n.

(** The functions that [setTime] calls and that are defined outside
    [config.go]: the two steps that read the request, the execution of a
    command (name, arguments, as root, input) and the clock of
    [time.Now().Clock()], whose three results are not negative. *)
Class TimeCollaborators (E : Type) : Type := {
  parseRequest : Request → M (state E) (requestObject * option error);
  validateRequest : requestObject → list string → option error;
  execCommand :
    string → list string → bool → string → M (state E) (string * option error);
  time_Now_Clock : M (state E) (N * N * N);
}.

(** [%02d] of a number that is not negative. *)
Definition two_digits (n : N) : string :=
  if (n <? 10)%N then "0" ++ FormatUint n else FormatUint n.

(** [jsonObject{"status": "OK", "response": nil}] *)
Definition ok_response : jsonObject :=
  Some (<["status" := string_value "OK"]> (<["response" := nil_value]> ∅)).

Section SetTime.
Context {E : Type} `{TimeCollaborators E}.

(** [setTime(w, r)], with the second half [o] of [conf]; the writer is not
    used. The error of [Int64] is assigned and never read. *)
Definition setTime (o : settings) (r : Request) : M (state E) jsonObject :=
  '(req, err) ← parseRequest r;
  match err with
  | Some err => errorResponse err ""
  | None =>
      match validateRequest req ["epoch:n"] with
      | Some err => errorResponse err ""
      | None =>
          match map_get req "epoch" with
          | Some (json_Number t) =>
              let '(epoch, _) := Int64 t in
              let args := ["-s"; "@" ++ FormatInt epoch] in
              let cmd := "/bin/date" in
              if SetTime o then
                '(_, err) ← execCommand cmd args true "";
                match err with
                | Some err => errorResponse err ""
                | None =>
                    '(hour, min, sec) ← time_Now_Clock;
                    liftR (status_Log
                             ("adjusted device time to " ++ two_digits hour
                                ++ ":" ++ two_digits min
                                ++ ":" ++ two_digits sec));;
                    mret ok_response
                end
              else mret ok_response
          | _ => errorResponse (errors_New "invalid epoch format") ""
          end
      end
  end.

End SetTime.

End TimeApi.

(* ===================================================================== *)
(** ** More concrete servers, used to exercise the theorems               *)
(* ===================================================================== *)

Module MoreExamples.
Import GoStrings Http Registry Wrapper Api Settings TimeApi Examples.

(** A generator that fails after it has produced part of a nonce. *)
Definition truncated_nonce
  : nat → bool → unit → (string * option error) * unit :=
  λ _ _ _, (("Tm9u", Some (errors_New "unexpected EOF")), tt).

(** A server on which a provider is available under the name of the first
    segment of fixed routes. *)
Definition file_cipher : cipherInterface :=
  {| cipher_ptr := 7; GetInfo := {| Name := "file"; Extension := "file" |} |}.
Definition shadowing : state (list string) :=
  mkState
    (mkWorld
       (with_availableCiphers
          (Some (<["file" := file_cipher]>
                   (default ∅ (availableCiphers (conf serving)))))
          (conf serving))
       8 [] [])
    unwritten [].

(** Collaborators that tell requests apart as [journalling] does, and
    whose handlers all panic. *)
Definition unreachable : Collaborators (list string) := {|
  jsonObject_String := render;
  url_Parse := parse_url;
  url_ParseQuery := parse_query;
  session_Validate := validate;
  login r := panic "handler reached";
  refresh := panic "handler reached";
  serve cmd r := panic "handler reached";
  fileDownloadByID id := journal ("fileDownloadByID " ++ id);
  HandleRequest cipher r := panic "handler reached";
|}.

(** Collaborators that decode every request to [req], accept an object
    that has all the members asked for, and keep a journal of the commands
    they are given; the clock shows 09:05:00. *)
Definition clockwork (req : requestObject) : TimeCollaborators (list string)
  := {|
  parseRequest r := mret (req, None);
  validateRequest req keys :=
    if forallb
         (λ k, bool_decide (is_Some (map_get req (nth 0 (Split k ":") ""))))
         keys
    then None else Some (errors_New "missing attribute");
  execCommand cmd args root input :=
    journal (Join (cmd :: args) " ");; mret ("", None);
  time_Now_Clock := mret (9, 5, 0)%N;
|}.

Definition epoch_request (text : string) : requestObject :=
  Some (<["epoch" := json_Number text]> ∅).

Definition settings_with (set_time : bool) : settings :=
  mkSettings "static" set_time "0.0.0.0" "on" "certs/cert.pem" "certs/key.pem"
    "" "keys" "lvmvolume" "" false.

Definition post_time : Request := authenticated "/api/config/time".

End MoreExamples.

(* ===================================================================== *)
(** ** Facts about strings                                                *)
(* ===================================================================== *)

Module StringFacts.
Import GoStrings.

Lemma append_String (a : ascii) (s x : string) :
  String a s ++ x = String a (s ++ x).
Proof. reflexivity. Qed.

Lemma append_empty (x : string) : "" ++ x = x.
Proof. reflexivity. Qed.

Lemma append_empty_r (x : string) : x ++ "" = x.
Proof.
  induction x as [|a x IH]; [done|]. by rewrite append_String, IH.
Qed.

Lemma snoc_string (l : list ascii) (c : ascii) (x : string) :
  string_of_list_ascii (l ++ [c]) ++ x
  = string_of_list_ascii l ++ String c x.
Proof.
  induction l as [|a l IH]; [done|].
  change (String a (string_of_list_ascii (l ++ [c])) ++ x
          = String a (string_of_list_ascii l) ++ String c x).
  by rewrite !append_String, IH.
Qed.

Lemma append_assoc (x y z : string) : (x ++ y) ++ z = x ++ (y ++ z).
Proof.
  induction x as [|a x IH]; [done|]. by rewrite !append_String, IH.
Qed.


(** [HasPrefix s p] holds exactly when [s] is [p] followed by something. *)
Lemma HasPrefix_iff (s p : string) :
  HasPrefix s p = true ↔ ∃ r, s = p ++ r.
Proof.
  unfold HasPrefix. revert s. induction p as [|a p IH]; intros s.
  - split; [intros _; by exists s | intros _; by destruct s].
  - destruct s as [|b s]; simpl.
    + split; [done | intros [r Hr]; by rewrite append_String in Hr].
    + destruct (ascii_dec a b) as [->|Hne].
      * rewrite IH. split; intros [r Hr]; exists r.
        -- by rewrite append_String, Hr.
        -- rewrite append_String in Hr. by injection Hr.
      * split; [done|]. intros [r Hr]. rewrite append_String in Hr.
        by injection Hr.
Qed.


(** *** [strings.Split] on a one-byte separator *)

Lemma HasPrefix_byte (c a : ascii) (s : string) :
  HasPrefix (String a s) (String c "") = bool_decide (c = a).
Proof.
  unfold HasPrefix. simpl. destruct (ascii_dec c a) as [->|Hne].
  - rewrite bool_decide_eq_true_2 by done. by destruct s.
  - by rewrite bool_decide_eq_false_2.
Qed.

Lemma split_from_none (c : ascii) (s : string) :
  ∀ cur, c ∉ list_ascii_of_string s →
    split_from (String c "") s 0 cur
    = [string_of_list_ascii (rev cur) ++ s].
Proof.
  induction s as [|a s IH]; intros cur Hc.
  - simpl. by rewrite append_empty_r.
  - simpl in Hc. apply not_elem_of_cons in Hc as [Hne Hc].
    cbn [split_from]. rewrite HasPrefix_byte, bool_decide_eq_false_2 by done.
    rewrite IH by done. simpl. by rewrite snoc_string.
Qed.

Lemma split_from_first (c : ascii) (x rest : string) :
  ∀ cur, c ∉ list_ascii_of_string x →
    split_from (String c "") (x ++ String c rest) 0 cur
    = (string_of_list_ascii (rev cur) ++ x)
        :: split_from (String c "") rest 0 [].
Proof.
  induction x as [|a x IH]; intros cur Hc.
  - rewrite append_empty. cbn [split_from].
    rewrite HasPrefix_byte, bool_decide_eq_true_2 by done. simpl.
    by rewrite append_empty_r.
  - simpl in Hc. apply not_elem_of_cons in Hc as [Hne Hc].
    rewrite append_String. cbn [split_from].
    rewrite HasPrefix_byte, bool_decide_eq_false_2 by done.
    rewrite IH by done. simpl. by rewrite snoc_string.
Qed.

Lemma Split_none (c : ascii) (s : string) :
  c ∉ list_ascii_of_string s → Split s (String c "") = [s].
Proof. intros Hc. unfold Split. by rewrite split_from_none. Qed.

Lemma Split_first (c : ascii) (x rest : string) :
  c ∉ list_ascii_of_string x →
  Split (x ++ String c rest) (String c "") = x :: Split rest (String c "").
Proof. intros Hc. unfold Split. by rewrite split_from_first. Qed.

Lemma split_from_nonempty (sep s : string) :
  ∀ skip cur, split_from sep s skip cur ≠ [].
Proof.
  induction s as [|a s IH]; intros skip cur; cbn [split_from]; [done|].
  destruct skip; [|apply IH].
  destruct (HasPrefix (String a s) sep); [done | apply IH].
Qed.

(** The first occurrence of a byte splits a string around it. *)
Lemma first_byte (c : ascii) (s : string) :
  c ∈ list_ascii_of_string s →
  ∃ x rest, s = x ++ String c rest ∧ c ∉ list_ascii_of_string x.
Proof.
  induction s as [|a s IH]; simpl; [by intros ?%elem_of_nil|].
  intros Hin. destruct (decide (c = a)) as [->|Hne].
  - exists "", s. split; [done|]. apply not_elem_of_nil.
  - apply elem_of_cons in Hin as [? | Hin]; [done|].
    destruct (IH Hin) as (x & rest & -> & Hx).
    exists (String a x), rest. split; [done|]. simpl.
    by apply not_elem_of_cons.
Qed.

Lemma Split_found (c : ascii) (s : string) :
  c ∈ list_ascii_of_string s → (2 ≤ length (Split s (String c "")))%nat.
Proof.
  intros (x & rest & -> & Hx)%first_byte. rewrite Split_first by done.
  unfold Split. pose proof (split_from_nonempty (String c "") rest 0 []).
  destruct (split_from _ _ _ _); [done | simpl; lia].
Qed.

End StringFacts.

(* ===================================================================== *)
(** ** Facts about the registry                                           *)
(* ===================================================================== *)

Module RegistryFacts.
Import GoStrings Registry StringFacts.

Lemma bind_Done {S A B} (m : M S A) (f : A → M S B) s a s' :
  m s = Done a s' → (m ≫= f) s = f a s'.
Proof. intros Hm. unfold mbind, M_bind. by rewrite Hm. Qed.

(** The lines of the diagnostic of [PrintAvailableCiphers]: the heading
    and one line per available name, in the order of the [range]. *)
Definition diagnostic `{MapRange} (w : world) : list string :=
  "supported ciphers:"
    :: ((λ k, tab ++ k) <$> (fst <$> range_opt (availableCiphers (conf w)))).

Definition log_more (lines : list string) (w : world) : world :=
  mkWorld (conf w) (heap w) (logged w ++ lines) (notices w).

Definition enable (m : gmap string cipherInterface) (w : world) : world :=
  mkWorld (with_enabledCiphers (Some m) (conf w)) (heap w) (logged w)
          (notices w).

Section Facts.
Context `{MapRange}.

Lemma log_lines_run (l : list string) (w : world) :
  foldr (λ k rest, log_Print (tab ++ k);; rest) (mret tt) l w
  = Done tt (log_more ((λ k, tab ++ k) <$> l) w).
Proof.
  revert w. induction l as [|k l IH]; intros w; simpl.
  - unfold log_more. simpl. rewrite app_nil_r. by destruct w.
  - unfold mbind, M_bind, log_Print, modify at 1. rewrite IH.
    unfold log_more. simpl. by rewrite <- app_assoc.
Qed.

Lemma PrintAvailableCiphers_run (w : world) :
  PrintAvailableCiphers w = Done tt (log_more (diagnostic w) w).
Proof.
  unfold PrintAvailableCiphers.
  unfold mbind at 1, M_bind at 1, log_Print, modify at 1.
  unfold mbind at 1, M_bind at 1, get_conf. simpl.
  rewrite log_lines_run. unfold log_more, diagnostic. simpl.
  by rewrite <- app_assoc.
Qed.

(** Every available name is on a line of the diagnostic. *)
Lemma diagnostic_complete (w : world) (k : string) :
  is_Some (map_get (availableCiphers (conf w)) k) →
  tab ++ k ∈ diagnostic w.
Proof.
  intros [v Hv]. unfold diagnostic. apply list_elem_of_further.
  apply list_elem_of_fmap. exists k. split; [done|].
  apply list_elem_of_fmap. exists (k, v). split; [done|].
  destruct (availableCiphers (conf w)) as [m|]; [|done]. simpl in *.
  rewrite range_perm. by apply elem_of_map_to_list.
Qed.

(** The loop of [EnableCiphers], run on a made enabled map [m]. *)
Lemma enable_from_run (names : list string) :
  ∀ (w : world) (m : gmap string cipherInterface),
    enabledCiphers (conf w) = Some m →
    ∃ r m',
      enable_from names w
      = Done r (enable m' (log_more (if r is Some _ then diagnostic w else []) w))
      ∧ (∀ k v, m' !! k = Some v →
           m !! k = Some v
           ∨ (k ∈ names ∧ map_get (availableCiphers (conf w)) k = Some v))
      ∧ (∀ k, k ∉ names → m' !! k = m !! k)
      ∧ match r with
        | None =>
            ∀ n, n ∈ names →
              is_Some (m' !! n)
              ∧ m' !! n = map_get (availableCiphers (conf w)) n
        | Some e =>
            ∃ n, n ∈ names
                 ∧ map_get (availableCiphers (conf w)) n = None
                 ∧ e = "unsupported cipher name " ++ n
        end.
Proof.
  induction names as [|name names IH]; intros w m Hm.
  - exists None, m. split; [|split; [|split]].
    + simpl. unfold enable, log_more. simpl. rewrite app_nil_r.
      destruct w as [c ? ? ?]. simpl in *. f_equal. f_equal.
      destruct c; simpl in *. by subst.
    + auto.
    + done.
    + intros n Hn. by apply elem_of_nil in Hn.
  - simpl. unfold mbind at 1, M_bind at 1, get_conf. simpl.
    destruct (map_get (availableCiphers (conf w)) name) as [val|] eqn:Hav.
    + unfold mbind at 1, M_bind at 1, assign_enabled.
      unfold mbind at 1, M_bind at 1, get_conf. simpl. rewrite Hm.
      unfold set_conf, modify.
      set (w1 := mkWorld _ _ _ _).
      destruct (IH w1 (<[name := val]> m) eq_refl)
        as (r & m' & Hrun & Hsub & Hkeep & Hr).
      exists r, m'. split; [|split; [|split]].
      * rewrite Hrun. subst w1. by destruct r.
      * intros k v Hk. destruct (Hsub k v Hk) as [Hin | [Hin Hv]].
        -- destruct (decide (name = k)) as [->|Hne].
           ++ rewrite lookup_insert_eq in Hin. simplify_eq.
              right. split; [apply list_elem_of_here | done].
           ++ rewrite lookup_insert_ne in Hin by done. by left.
        -- right. split; [by apply list_elem_of_further | done].
      * intros k Hk. apply not_elem_of_cons in Hk as [Hne Hk].
        rewrite (Hkeep k Hk). by rewrite lookup_insert_ne.
      * destruct r as [e|].
        -- destruct Hr as (n & Hn & Hnone & ->). exists n.
           split; [by apply list_elem_of_further | done].
        -- intros n Hn. apply elem_of_cons in Hn as [-> | Hn].
           ++ destruct (decide (name ∈ names)) as [Hin | Hnin].
              ** apply (Hr name Hin).
              ** rewrite (Hkeep name Hnin), lookup_insert_eq, Hav.
                 split; [by eexists | done].
           ++ apply (Hr n Hn).
    + rewrite (bind_Done _ _ _ _ _ (PrintAvailableCiphers_run w)).
      exists (Some ("unsupported cipher name " ++ name)), m.
      split; [|split; [|split]].
      * unfold mret, M_ret, enable, log_more. simpl. f_equal.
        destruct w as [c ? ? ?]. simpl in *. f_equal.
        destruct c; simpl in *. by subst.
      * auto.
      * done.
      * exists name. split; [apply list_elem_of_here | done].
Qed.

(** [EnableCiphers] always returns, and leaves a made enabled map. *)
Lemma EnableCiphers_run (w : world) :
  ∃ r m',
    EnableCiphers w
    = Done r (enable m' (log_more (if r is Some _ then diagnostic w else []) w))
    ∧ (∀ k v, m' !! k = Some v →
         map_get (enabledCiphers (conf w)) k = Some v
         ∨ (k ∈ Ciphers (conf w)
            ∧ map_get (availableCiphers (conf w)) k = Some v))
    ∧ (∀ k, k ∉ Ciphers (conf w) →
         m' !! k = map_get (enabledCiphers (conf w)) k)
    ∧ match r with
      | None =>
          ∀ n, n ∈ Ciphers (conf w) →
            is_Some (m' !! n)
            ∧ m' !! n = map_get (availableCiphers (conf w)) n
      | Some e =>
          Ciphers (conf w) = []
          ∨ ∃ n, n ∈ Ciphers (conf w)
                 ∧ map_get (availableCiphers (conf w)) n = None
      end.
Proof.
  unfold EnableCiphers.
  unfold mbind at 1, M_bind at 1, get_conf at 1. simpl.
  set (m0 := default ∅ (enabledCiphers (conf w))).
  assert (Hget : ∀ k, m0 !! k = map_get (enabledCiphers (conf w)) k).
  { intros k. subst m0. by destruct (enabledCiphers (conf w)). }
  assert (Hpre :
    ((if enabledCiphers (conf w) is None
      then set_conf (with_enabledCiphers (Some ∅)) else mret tt) w)
    = Done tt (enable m0 w)).
  { subst m0. unfold enable. destruct w as [c ? ? ?]. simpl.
    destruct c as [? ? ? ? en ? ? ?]. simpl. by destruct en. }
  rewrite (bind_Done _ _ _ _ _ Hpre).
  unfold mbind at 1, M_bind at 1, get_conf at 1. simpl.
  destruct (decide (length (Ciphers (conf w)) = 0)) as [Hlen | Hlen].
  - rewrite (bind_Done _ _ _ _ _ (PrintAvailableCiphers_run _)).
    exists (Some (errors_New "missing cipher specification")), m0.
    split; [done|]. split; [|split].
    + intros k v Hk. left. by rewrite <- Hget.
    + intros k _. apply Hget.
    + left. by apply length_zero_iff_nil.
  - destruct (enable_from_run (Ciphers (conf w)) (enable m0 w) m0 eq_refl)
      as (r & m' & Hrun & Hsub & Hkeep & Hr).
    exists r, m'. split; [|split; [|split]].
    + rewrite Hrun. by destruct r.
    + intros k v Hk. destruct (Hsub k v Hk) as [Hin | Hin].
      * left. by rewrite <- Hget.
      * by right.
    + intros k Hk. by rewrite (Hkeep k Hk).
    + destruct r as [e|]; [|done].
      destruct Hr as (n & Hn & Hnone & _). right. by exists n.
Qed.

(** After [EnableCiphers] the enabled map is made, whatever it returned. *)
Lemma EnableCiphers_makes_map (w : world) :
  is_Some (enabledCiphers (conf (final (EnableCiphers w)))).
Proof.
  destruct (EnableCiphers_run w) as (r & m' & -> & _). simpl. by eexists.
Qed.

(** *** Lookups *)

(** The instance [New()] makes from [val] in the state [w], and the
    state after the allocation. *)
Definition made_from (val : cipherInterface) (w : world) : cipherInterface :=
  {| cipher_ptr := heap w; GetInfo := GetInfo val |}.

Definition allocated (w : world) : world :=
  mkWorld (conf w) (S (heap w)) (logged w) (notices w).

(** Every instance stored in the registry was allocated before. *)
Definition stored (w : world) (c : cipherInterface) : Prop :=
  ∃ k, map_get (availableCiphers (conf w)) k = Some c
       ∨ map_get (enabledCiphers (conf w)) k = Some c.

Definition well_allocated (w : world) : Prop :=
  ∀ c, stored w c → cipher_ptr c < heap w.

Lemma GetCipher_found (w : world) (name : string) (val : cipherInterface) :
  map_get (enabledCiphers (conf w)) name = Some val →
  GetCipher name w = Done (inl (made_from val w)) (allocated w).
Proof.
  intros Hval. unfold GetCipher, mbind, M_bind, get_conf. simpl.
  by rewrite Hval.
Qed.

Lemma GetCipher_unknown (w : world) (name : string) :
  map_get (enabledCiphers (conf w)) name = None →
  GetCipher name w = Done (inr (errors_New "invalid cipher")) w.
Proof.
  intros Hval. unfold GetCipher, mbind, M_bind, get_conf. simpl.
  by rewrite Hval.
Qed.

Lemma GetAvailableCipher_found (w : world) (name : string)
    (val : cipherInterface) :
  map_get (availableCiphers (conf w)) name = Some val →
  GetAvailableCipher name w = Done (inl (made_from val w)) (allocated w).
Proof.
  intros Hval. unfold GetAvailableCipher, mbind, M_bind, get_conf. simpl.
  by rewrite Hval.
Qed.

Lemma GetAvailableCipher_unknown (w : world) (name : string) :
  map_get (availableCiphers (conf w)) name = None →
  GetAvailableCipher name w = Done (inr (errors_New "invalid cipher")) w.
Proof.
  intros Hval. unfold GetAvailableCipher, mbind, M_bind, get_conf. simpl.
  by rewrite Hval.
Qed.

(** A made instance is none of the stored ones. *)
Lemma made_from_fresh (w : world) (val c : cipherInterface) :
  well_allocated w → stored w c → made_from val w ≠ c.
Proof.
  intros Hw Hc Heq. specialize (Hw c Hc). subst c. simpl in Hw. lia.
Qed.

Lemma by_ext_found (ext : string) (l : list (string * cipherInterface))
    (c : cipherInterface) :
  by_ext ext l = inl c →
  ∃ k, (k, c) ∈ l ∧ Extension (GetInfo c) = ext.
Proof.
  induction l as [|[k val] l IH]; simpl; [done|].
  destruct (decide (Extension (GetInfo val) = ext)) as [Hext | Hext].
  - intros [= <-]. exists k. split; [apply list_elem_of_here | done].
  - intros (k' & Hin & He)%IH. exists k'.
    split; [by apply list_elem_of_further | done].
Qed.

Lemma by_ext_unknown (ext : string) (l : list (string * cipherInterface)) :
  (∀ k c, (k, c) ∈ l → Extension (GetInfo c) ≠ ext) →
  by_ext ext l = inr (errors_New "invalid cipher").
Proof.
  induction l as [|[k val] l IH]; simpl; [done|]. intros Hall.
  destruct (decide (Extension (GetInfo val) = ext)) as [Hext | Hext].
  - destruct (Hall k val); [apply list_elem_of_here | done].
  - apply IH. intros k' c Hin. apply (Hall k').
    by apply list_elem_of_further.
Qed.

Lemma range_opt_lookup {V} (m : option (gmap string V)) (k : string) (v : V) :
  (k, v) ∈ range_opt m ↔ map_get m k = Some v.
Proof.
  destruct m as [m|]; simpl.
  - rewrite range_perm. apply elem_of_map_to_list.
  - split; [intros []%elem_of_nil | done].
Qed.

End Facts.

(** C1. Whatever the configured list of cipher names: if one of the
    names is missing from the available map, [EnableCiphers] returns an
    error after logging the diagnostic, which has a line for every
    available name; and when it returns no error, every configured name
    is in the enabled map, bound to the provider that the available map
    holds under that name. *)
Theorem EnableCiphers_fails_closed `{MapRange} (w : world) :
  ((∃ n, n ∈ Ciphers (conf w)
         ∧ map_get (availableCiphers (conf w)) n = None) →
   ∃ e w',
     EnableCiphers w = Done (Some e) w'
     ∧ logged w' = (logged w ++ diagnostic w)%list
     ∧ ∀ k, is_Some (map_get (availableCiphers (conf w)) k) →
            tab ++ k ∈ diagnostic w)
  ∧ (∀ w', EnableCiphers w = Done None w' →
       availableCiphers (conf w') = availableCiphers (conf w)
       ∧ ∀ n, n ∈ Ciphers (conf w) →
           ∃ val,
             map_get (availableCiphers (conf w')) n = Some val
             ∧ map_get (enabledCiphers (conf w')) n = Some val).
Proof.
  destruct (EnableCiphers_run w) as (r & m' & Hrun & _ & _ & Hr).
  split.
  - intros (n & Hn & Hnone). destruct r as [e|].
    + exists e, (enable m' (log_more (diagnostic w) w)).
      split; [done|]. split; [done|]. apply diagnostic_complete.
    + destruct (Hr n Hn) as [[v Hv] Heq]. congruence.
  - intros w' Hw'. rewrite Hrun in Hw'. destruct r as [e|]; [done|].
    injection Hw' as <-. split; [done|]. intros n Hn.
    destruct (Hr n Hn) as [[v Hv] Heq]. exists v. simpl.
    split; [congruence | done].
Qed.

Lemma EnableCiphers_fails_closed_witness :
  (∃ e w',
     @EnableCiphers range_default
       (Examples.registered ["OpenPGP"; "Blowfish"] "off")
     = Done (Some e) w'
     ∧ logged w' = ["supported ciphers:"; tab ++ "OpenPGP";
                    tab ++ "AES-256-OFB"; tab ++ "TOTP"])
  ∧ (∃ val,
       map_get (enabledCiphers (conf (final
         (@EnableCiphers range_default
            (Examples.registered ["OpenPGP"; "TOTP"] "off")))))
         "TOTP" = Some val
       ∧ val = Examples.totp).
Proof.
  split.
  - destruct (proj1 (@EnableCiphers_fails_closed range_default
                       (Examples.registered ["OpenPGP"; "Blowfish"] "off")))
      as (e & w' & Hrun & Hlog & _).
    + exists "Blowfish". split; [set_solver | reflexivity].
    + exists e, w'. split; [done|]. rewrite Hlog. reflexivity.
  - destruct (proj2 (@EnableCiphers_fails_closed range_default
                       (Examples.registered ["OpenPGP"; "TOTP"] "off"))
                _ eq_refl) as [_ Hall].
    destruct (Hall "TOTP") as (val & Hav & Hen); [set_solver|].
    exists val. split; [exact Hen|].
    vm_compute in Hav. by injection Hav.
Defined.

(** C2. A lookup by enabled name returns an instance made by [New()]
    from the stored provider, at a newly allocated address, or the error
    "invalid cipher" for a name that is not enabled. A lookup by
    extension also answers "invalid cipher" when no enabled provider has
    the extension, but what it returns on a match is the instance stored
    in the enabled map itself: nothing is allocated. *)
Theorem GetCipherByExt_shares_instance `{MapRange} (w : world) :
  (∀ name val, map_get (enabledCiphers (conf w)) name = Some val →
     GetCipher name w = Done (inl (made_from val w)) (allocated w)
     ∧ (well_allocated w → ∀ c, stored w c → made_from val w ≠ c))
  ∧ (∀ name, map_get (enabledCiphers (conf w)) name = None →
       GetCipher name w = Done (inr (errors_New "invalid cipher")) w)
  ∧ (∀ ext c w', GetCipherByExt ext w = Done (inl c) w' →
       w' = w
       ∧ Extension (GetInfo c) = ext
       ∧ ∃ k, map_get (enabledCiphers (conf w)) k = Some c)
  ∧ (∀ ext,
       (∀ k c, map_get (enabledCiphers (conf w)) k = Some c →
               Extension (GetInfo c) ≠ ext) →
       GetCipherByExt ext w = Done (inr (errors_New "invalid cipher")) w).
Proof.
  assert (Hrun : ∀ ext,
    GetCipherByExt ext w
    = Done (by_ext ext (range_opt (enabledCiphers (conf w)))) w).
  { intros ext. by unfold GetCipherByExt, mbind, M_bind, get_conf. }
  split; [|split; [|split]].
  - intros name val Hval. split; [by apply GetCipher_found|].
    intros Hw c Hc. by apply made_from_fresh.
  - intros name Hnone. by apply GetCipher_unknown.
  - intros ext c w' Hret. rewrite Hrun in Hret. injection Hret as Hby <-.
    destruct (by_ext_found _ _ _ Hby) as (k & Hin & Hext).
    split; [done|]. split; [done|]. exists k. by apply range_opt_lookup.
  - intros ext Hall. rewrite Hrun, by_ext_unknown; [done|].
    intros k c Hin. apply (Hall k). by apply range_opt_lookup.
Qed.

Lemma GetCipherByExt_shares_instance_witness :
  (@GetCipherByExt range_default "totp" Examples.serving
   = Done (inl Examples.totp) Examples.serving)
  ∧ (∃ k, map_get (enabledCiphers (conf Examples.serving)) k
          = Some Examples.totp)
  ∧ (GetCipher "TOTP" Examples.serving
     = Done (inl (made_from Examples.totp Examples.serving))
            (allocated Examples.serving))
  ∧ made_from Examples.totp Examples.serving ≠ Examples.totp.
Proof.
  assert (Hrun : @GetCipherByExt range_default "totp" Examples.serving
                 = Done (inl Examples.totp) Examples.serving)
    by (vm_compute; reflexivity).
  destruct (@GetCipherByExt_shares_instance range_default Examples.serving)
    as (Hname & _ & Hext & _).
  destruct (Hext _ _ _ Hrun) as (_ & _ & Hstored).
  destruct (Hname "TOTP" Examples.totp) as [Hget Hfresh];
    [vm_compute; reflexivity|].
  split; [exact Hrun|]. split; [exact Hstored|]. split; [exact Hget|].
  discriminate.
Defined.

(** *** Runs of the registry's steps *)

Definition register (c : cipherInterface) (w : world) : world :=
  mkWorld
    (with_availableCiphers
       (Some (<[Name (GetInfo c) := c]>
                (default ∅ (availableCiphers (conf w)))))
       (conf w))
    (heap w) (logged w) (notices w).

Lemma SetAvailableCipher_run (c : cipherInterface) (w : world) :
  SetAvailableCipher c w = Done tt (register c w).
Proof.
  unfold SetAvailableCipher, register, mbind, M_bind, get_conf. simpl.
  destruct w as [cf ? ? ?]. simpl.
  by destruct cf as [? ? ? [av|] ? ? ? ?].
Qed.

Lemma assign_enabled_run (k : string) (v : cipherInterface) (w : world) :
  assign_enabled k v w
  = match enabledCiphers (conf w) with
    | Some m => Done tt (enable (<[k := v]> m) w)
    | None => Panic "assignment to entry in nil map" w
    end.
Proof.
  unfold assign_enabled, mbind, M_bind, get_conf. simpl.
  by destruct (enabledCiphers (conf w)).
Qed.

(** What the directive's option strings do, one by one. *)
Definition valid_option (o : string) : Prop :=
  o = "luks" ∨ o = "tls" ∨ o = "cipher".

Lemma hsm_option_luks (h : HSMInterface) (w : world) :
  hsm_option h "luks" w
  = Done tt (mkWorld (with_authHSM (Some h) (conf w)) (heap w) (logged w)
                     (notices w)).
Proof. reflexivity. Qed.

Lemma hsm_option_tls (h : HSMInterface) (w : world) :
  hsm_option h "tls" w
  = Done tt (mkWorld (with_tlsHSM (Some h) (conf w)) (heap w) (logged w)
                     (notices w)).
Proof. reflexivity. Qed.

Lemma hsm_option_cipher (h : HSMInterface) (w : world) :
  hsm_option h "cipher" w
  = assign_enabled (Name (GetInfo (Cipher h))) (Cipher h)
      (register (Cipher h) w).
Proof.
  change (hsm_option h "cipher" w)
    with ((SetAvailableCipher (Cipher h);;
           assign_enabled (Name (GetInfo (Cipher h))) (Cipher h)) w).
  by rewrite (bind_Done _ _ _ _ _ (SetAvailableCipher_run _ _)).
Qed.

Lemma hsm_option_invalid (h : HSMInterface) (o : string) (w : world) :
  ¬ valid_option o →
  hsm_option h o w = Exit (log_more ["invalid hsm option"] w).
Proof.
  intros Ho. unfold hsm_option, valid_option in *.
  repeat case_decide; first [tauto | reflexivity].
Qed.

Lemma hsm_option_valid (h : HSMInterface) (o : string) (w : world) :
  valid_option o →
  (∃ w1, hsm_option h o w = Done tt w1
         ∧ (is_Some (enabledCiphers (conf w)) →
            is_Some (enabledCiphers (conf w1))))
  ∨ (∃ msg w1, hsm_option h o w = Panic msg w1
               ∧ enabledCiphers (conf w) = None).
Proof.
  intros [-> | [-> | ->]].
  - left. eexists. by rewrite hsm_option_luks.
  - left. eexists. by rewrite hsm_option_tls.
  - rewrite hsm_option_cipher, assign_enabled_run. simpl.
    destruct (enabledCiphers (conf w)) as [m|].
    + left. eexists. split; [done|]. by eexists.
    + right. by eexists _, _.
Qed.

Lemma hsm_options_invalid (h : HSMInterface) (options : list string) :
  (∃ o, o ∈ options ∧ ¬ valid_option o) →
  ∀ w,
    (∀ r w', hsm_options h options w ≠ Done r w')
    ∧ (is_Some (enabledCiphers (conf w)) →
       ∃ w', hsm_options h options w = Exit w'
             ∧ last (logged w') = Some "invalid hsm option").
Proof.
  induction options as [|o options IH]; intros (bad & Hin & Hbad) w.
  { by apply elem_of_nil in Hin. }
  cbn [hsm_options]. unfold mbind, M_bind.
  destruct (decide (valid_option o)) as [Ho | Ho].
  - assert (Hrest : ∃ o', o' ∈ options ∧ ¬ valid_option o').
    { exists bad. apply elem_of_cons in Hin as [-> | Hin]; [done|].
      by split. }
    destruct (hsm_option_valid h o w Ho)
      as [(w1 & -> & Hen) | (msg & w1 & -> & Hnone)].
    + destruct (IH Hrest w1) as [Hnot Hexit]. split; [done|].
      intros Hsome. apply Hexit, Hen, Hsome.
    + split; [done|]. rewrite Hnone. by intros [? ?].
  - rewrite hsm_option_invalid by done. split; [done|]. intros _.
    eexists. split; [done|]. simpl. by rewrite last_snoc.
Qed.

(** The model and the options that [EnableHSM] reads off a directive. *)
Definition directive_model (d : string) : string :=
  nth 0 (Split d ":") "".

Definition directive_options (d : string) : list string :=
  Split (nth 1 (Split d ":") "") ",".

(** The instance [New()] makes from the HSM [val] in the state [w], and
    the state in which the options are then processed. *)
Definition hsm_made_from (val : HSMInterface) (w : world) : HSMInterface :=
  {| hsm_ptr := heap w; Cipher := Cipher val |}.

Definition hsm_started (w : world) : world :=
  mkWorld (conf w) (S (heap w)) (logged w)
    (notices w ++ ["enabling " ++ directive_model (HSM (conf w)) ++ " HSM ["
                    ++ Join (directive_options (HSM (conf w))) " " ++ "]"]).

Lemma EnableHSM_off (w : world) :
  HSM (conf w) = "off" → EnableHSM w = Done None w.
Proof.
  intros Hoff. unfold EnableHSM, mbind, M_bind, get_conf. simpl.
  by rewrite decide_True.
Qed.

Lemma EnableHSM_run (w : world) :
  HSM (conf w) ≠ "off" →
  EnableHSM w
  = if decide (length (Split (HSM (conf w)) ":") < 2)%nat
    then Exit (log_more ["invalid hsm configuration directive"] w)
    else
      match map_get (availableHSMs (conf w)) (directive_model (HSM (conf w))) with
      | None => Exit (log_more ["invalid hsm model"] w)
      | Some val =>
          match hsm_options (hsm_made_from val w)
                  (directive_options (HSM (conf w))) (hsm_started w) with
          | Done _ w' => Done None w'
          | Exit w' => Exit w'
          | Panic msg w' => Panic msg w'
          end
      end.
Proof.
  intros Hoff. unfold EnableHSM.
  unfold mbind at 1, M_bind at 1, get_conf at 1. simpl.
  rewrite decide_False by done.
  unfold mbind at 1, M_bind at 1.
  destruct (decide (length (Split (HSM (conf w)) ":") < 2)%nat); [done|].
  simpl. fold (directive_model (HSM (conf w))).
  destruct (map_get _ _) as [val|]; [|done].
  unfold mbind at 1, M_bind at 1, status_Log, modify.
  unfold mbind at 1, M_bind at 1, HSM_New. simpl.
  unfold mbind at 1, M_bind at 1.
  fold (directive_options (HSM (conf w))).
  reflexivity.
Qed.

(** C6, as amended. On the directive ["off"], [EnableHSM] does nothing. On
    ["x:luks,cipher"], with [x] a registered model and the enabled map
    made (as [EnableCiphers] leaves it), it makes one new instance of [x],
    binds it as [authHSM] and leaves [tlsHSM] alone, and puts the cipher
    that [x] supplies into the available and into the enabled map under
    the cipher's name. A directive other than ["off"] without [":"], a
    model that is not registered, and an option other than [luks], [tls]
    and [cipher] all end the run without a return: the first two and, on
    a made enabled map, the third through [log.Fatal]. *)
Theorem EnableHSM_directive (w : world) :
  (HSM (conf w) = "off" → EnableHSM w = Done None w)
  ∧ (∀ x val m,
       ":"%char ∉ list_ascii_of_string x →
       HSM (conf w) = x ++ ":luks,cipher" →
       map_get (availableHSMs (conf w)) x = Some val →
       enabledCiphers (conf w) = Some m →
       ∃ w',
         EnableHSM w = Done None w'
         ∧ heap w' = S (heap w)
         ∧ authHSM (conf w') = Some (hsm_made_from val w)
         ∧ tlsHSM (conf w') = tlsHSM (conf w)
         ∧ map_get (availableCiphers (conf w'))
             (Name (GetInfo (Cipher val))) = Some (Cipher val)
         ∧ map_get (enabledCiphers (conf w'))
             (Name (GetInfo (Cipher val))) = Some (Cipher val))
  ∧ (HSM (conf w) ≠ "off" →
     ":"%char ∉ list_ascii_of_string (HSM (conf w)) →
     EnableHSM w
     = Exit (log_more ["invalid hsm configuration directive"] w))
  ∧ (":"%char ∈ list_ascii_of_string (HSM (conf w)) →
     map_get (availableHSMs (conf w)) (directive_model (HSM (conf w))) = None →
     EnableHSM w = Exit (log_more ["invalid hsm model"] w))
  ∧ (∀ val o,
       ":"%char ∈ list_ascii_of_string (HSM (conf w)) →
       map_get (availableHSMs (conf w)) (directive_model (HSM (conf w)))
       = Some val →
       o ∈ directive_options (HSM (conf w)) →
       o ≠ "luks" → o ≠ "tls" → o ≠ "cipher" →
       (∀ r w', EnableHSM w ≠ Done r w')
       ∧ (is_Some (enabledCiphers (conf w)) →
          ∃ w', EnableHSM w = Exit w'
                ∧ last (logged w') = Some "invalid hsm option")).
Proof.
  assert (Hcolon : ":"%char ∈ list_ascii_of_string (HSM (conf w)) →
                   HSM (conf w) ≠ "off"
                   ∧ ¬ (length (Split (HSM (conf w)) ":") < 2)%nat).
  { intros Hin. split.
    - intros Hoff. rewrite Hoff in Hin. apply list_elem_of_In in Hin.
      simpl in Hin. intuition discriminate.
    - apply Split_found in Hin. lia. }
  split; [apply EnableHSM_off|]. split; [|split; [|split]].
  - intros x val m Hx Hd Hval Hm.
    assert (Hsplit : Split (HSM (conf w)) ":" = [x; "luks,cipher"]).
    { rewrite Hd. by rewrite (Split_first ":" x "luks,cipher"). }
    assert (Hoff : HSM (conf w) ≠ "off").
    { intros Hoff. by rewrite Hoff in Hsplit. }
    rewrite EnableHSM_run by done.
    unfold directive_model, directive_options. rewrite Hsplit.
    rewrite decide_False by (simpl; lia). simpl nth. rewrite Hval.
    change (Split "luks,cipher" ",") with ["luks"; "cipher"].
    cbn [hsm_options]. unfold mbind, M_bind.
    rewrite hsm_option_luks, hsm_option_cipher, assign_enabled_run.
    simpl. rewrite Hm. eexists. split; [done|]. simpl.
    rewrite !lookup_insert_eq. done.
  - intros Hoff Hnone. rewrite EnableHSM_run by done.
    rewrite (Split_none ":") by done. by rewrite decide_True by (simpl; lia).
  - intros Hin Hnone. destruct (Hcolon Hin) as [Hoff Hlen].
    rewrite EnableHSM_run by done. rewrite decide_False by done.
    by rewrite Hnone.
  - intros val o Hin Hval Ho Hl Ht Hc. destruct (Hcolon Hin) as [Hoff Hlen].
    rewrite EnableHSM_run by done. rewrite decide_False by done.
    rewrite Hval.
    destruct (hsm_options_invalid (hsm_made_from val w)
                (directive_options (HSM (conf w)))) with (w := hsm_started w)
      as [Hnot Hexit].
    { exists o. split; [done|]. unfold valid_option. tauto. }
    split.
    + intros r w'. destruct (hsm_options _ _ _) eqn:Hrun; try done.
      by destruct (Hnot a s).
    + intros Hsome. destruct (Hexit Hsome) as (w' & -> & Hlast).
      by exists w'.
Qed.

Lemma EnableHSM_directive_witness :
  (∃ w',
     EnableHSM (final (@EnableCiphers range_default
                  (Examples.registered ["OpenPGP"] "mxc-scc2:luks,cipher")))
     = Done None w'
     ∧ authHSM (conf w')
       = Some {| hsm_ptr := 5; Cipher := Examples.scc_cipher |}
     ∧ map_get (availableCiphers (conf w')) "AES-256-SCC"
       = Some Examples.scc_cipher
     ∧ map_get (enabledCiphers (conf w')) "AES-256-SCC"
       = Some Examples.scc_cipher)
  ∧ (∀ r w',
       EnableHSM (Examples.registered ["OpenPGP"] "mxc-scc2:bogus")
       ≠ Done r w').
Proof.
  split.
  - destruct (EnableHSM_directive
                (final (@EnableCiphers range_default
                   (Examples.registered ["OpenPGP"] "mxc-scc2:luks,cipher"))))
      as (_ & Hok & _).
    destruct (Hok "mxc-scc2" Examples.scc
                (<["OpenPGP" := Examples.pgp]> ∅))
      as (w' & Hrun & _ & Hauth & _ & Hav & Hen).
    + apply (bool_decide_unpack _). vm_compute. exact I.
    + reflexivity.
    + reflexivity.
    + vm_compute. reflexivity.
    + exists w'. by repeat split.
  - destruct (EnableHSM_directive
                (Examples.registered ["OpenPGP"] "mxc-scc2:bogus"))
      as (_ & _ & _ & _ & Hbad).
    destruct (Hbad Examples.scc "bogus") as [Hnot _]; try done.
    + apply (bool_decide_unpack _). vm_compute. exact I.
    + vm_compute. apply list_elem_of_here.
Defined.

(** C6, as stated, at a registry on which [EnableCiphers] has not run:
    the model is registered and the directive is ["mxc-scc2:luks,cipher"],
    but the enabled map is nil, the assignment into it panics, and the
    supplied cipher is in no enabled map. *)
Lemma EnableHSM_nil_enabled_map_panics :
  ∃ w',
    EnableHSM (Examples.registered ["OpenPGP"] "mxc-scc2:luks,cipher")
    = Panic "assignment to entry in nil map" w'
    ∧ map_get (availableHSMs
                 (conf (Examples.registered ["OpenPGP"] "mxc-scc2:luks,cipher")))
        "mxc-scc2" = Some Examples.scc
    ∧ map_get (availableCiphers (conf w')) "AES-256-SCC"
      = Some Examples.scc_cipher
    ∧ map_get (enabledCiphers (conf w')) "AES-256-SCC" = None.
Proof.
  eexists. split; [vm_compute; reflexivity|]. by repeat split.
Qed.

(** *** The invariant of the registry *)

(** Every key of the enabled map is a key of the available map. *)
Definition registry_inv (w : world) : Prop :=
  ∀ k, is_Some (map_get (enabledCiphers (conf w)) k) →
       is_Some (map_get (availableCiphers (conf w)) k).

(** The invariant holds wherever a run of [m] ends. *)
Definition preserves {A} (m : M world A) : Prop :=
  ∀ w, registry_inv w → registry_inv (final (m w)).

Lemma preserves_bind {A B} (m : M world A) (f : A → M world B) :
  preserves m → (∀ a, preserves (f a)) → preserves (m ≫= f).
Proof.
  intros Hm Hf w Hw. specialize (Hm w Hw). unfold mbind, M_bind.
  destruct (m w) as [a w' | w' | msg w']; simpl in *; [|done..].
  by apply Hf.
Qed.

(** A step that leaves both maps alone preserves the invariant. *)
Lemma preserves_maps {A} (m : M world A) :
  (∀ w, availableCiphers (conf (final (m w))) = availableCiphers (conf w)
        ∧ enabledCiphers (conf (final (m w))) = enabledCiphers (conf w)) →
  preserves m.
Proof.
  intros Hm w Hw k. destruct (Hm w) as [-> ->]. apply Hw.
Qed.

Lemma registry_inv_register (c : cipherInterface) (w : world) :
  registry_inv w → registry_inv (register c w).
Proof.
  intros Hw k Hk. unfold register. simpl in *.
  destruct (decide (Name (GetInfo c) = k)) as [<- | Hne].
  - rewrite lookup_insert_eq. by eexists.
  - rewrite lookup_insert_ne by done. specialize (Hw k Hk).
    by destruct (availableCiphers (conf w)).
Qed.

Lemma preserves_SetAvailableCipher (c : cipherInterface) :
  preserves (SetAvailableCipher c).
Proof.
  intros w Hw. rewrite SetAvailableCipher_run. simpl.
  by apply registry_inv_register.
Qed.

Lemma preserves_SetAvailableHSM (model : string) (h : HSMInterface) :
  preserves (SetAvailableHSM model h).
Proof.
  apply preserves_maps. intros w.
  unfold SetAvailableHSM, mbind, M_bind, get_conf. simpl.
  destruct w as [cf ? ? ?]. simpl.
  by destruct cf as [? ? ? ? ? [hs|] ? ?].
Qed.

Lemma preserves_EnableCiphers `{MapRange} : preserves EnableCiphers.
Proof.
  intros w Hw. destruct (EnableCiphers_run w) as (r & m' & -> & Hsub & _).
  intros k [v Hv]. simpl in *. destruct (Hsub k v Hv) as [Hen | [_ Hav]].
  - apply Hw. by eexists.
  - destruct r; simpl; by eexists.
Qed.

Lemma preserves_hsm_option (h : HSMInterface) (o : string) :
  preserves (hsm_option h o).
Proof.
  destruct (decide (valid_option o)) as [[-> | [-> | ->]] | Ho].
  - apply preserves_maps. intros w. by rewrite hsm_option_luks.
  - apply preserves_maps. intros w. by rewrite hsm_option_tls.
  - intros w Hw. rewrite hsm_option_cipher, assign_enabled_run.
    pose proof (registry_inv_register (Cipher h) w Hw) as Hreg.
    destruct (enabledCiphers (conf (register (Cipher h) w))) as [m|] eqn:Hm;
      [|done].
    intros k Hk. simpl in *.
    destruct (decide (Name (GetInfo (Cipher h)) = k)) as [<- | Hne].
    + rewrite lookup_insert_eq. by eexists.
    + rewrite lookup_insert_ne in Hk by done. specialize (Hreg k).
      simpl in Hreg. rewrite Hm in Hreg. by apply Hreg.
  - apply preserves_maps. intros w. by rewrite hsm_option_invalid.
Qed.

Lemma preserves_hsm_options (h : HSMInterface) (options : list string) :
  preserves (hsm_options h options).
Proof.
  induction options as [|o options IH]; [by intros w Hw|].
  apply preserves_bind; [apply preserves_hsm_option | by intros _].
Qed.

Lemma preserves_EnableHSM : preserves EnableHSM.
Proof.
  intros w Hw. destruct (decide (HSM (conf w) = "off")) as [Hoff | Hoff].
  { by rewrite EnableHSM_off. }
  rewrite EnableHSM_run by done. case_decide; [done|].
  destruct (map_get _ _) as [val|]; [|done].
  pose proof (preserves_hsm_options (hsm_made_from val w)
                (directive_options (HSM (conf w))) (hsm_started w) Hw) as Hfin.
  by destruct (hsm_options _ _ _).
Qed.

(** *** Sequences of registry operations *)

(** The operations on the registry that initialization is made of. *)
Inductive op : Type :=
| SetAvailableCipher_op (cipher : cipherInterface)
| SetAvailableHSM_op (model : string) (h : HSMInterface)
| EnableCiphers_op
| EnableHSM_op.

(** One operation; what the caller does with a returned error is left
    open, the run goes on. *)
Definition run_op `{MapRange} (o : op) : M world unit :=
  match o with
  | SetAvailableCipher_op cipher => SetAvailableCipher cipher
  | SetAvailableHSM_op model h => SetAvailableHSM model h
  | EnableCiphers_op => EnableCiphers;; mret tt
  | EnableHSM_op => EnableHSM;; mret tt
  end.

Fixpoint initialization `{MapRange} (ops : list op) : M world unit :=
  match ops with
  | [] => mret tt
  | o :: ops' => run_op o;; initialization ops'
  end.

(** Before the enabled map is made the invariant holds. *)
Lemma registry_inv_start (w : world) :
  enabledCiphers (conf w) = None → registry_inv w.
Proof. intros Hnil k. rewrite Hnil. by intros [? ?]. Qed.

Lemma preserves_run_op `{MapRange} (o : op) : preserves (run_op o).
Proof.
  destruct o as [cipher | model h | |]; simpl.
  - apply preserves_SetAvailableCipher.
  - apply preserves_SetAvailableHSM.
  - apply preserves_bind; [apply preserves_EnableCiphers | by intros _ w Hw].
  - apply preserves_bind; [apply preserves_EnableHSM | by intros _ w Hw].
Qed.

(** C9. After any sequence of the operations [SetAvailableCipher],
    [SetAvailableHSM], [EnableCiphers] and [EnableHSM], run from a state
    in which every enabled name is available (as at process start), every
    key of the enabled map is a key of the available map, in the state in
    which the sequence ended, whether it returned, exited or panicked. *)
Theorem enabled_subset_available `{MapRange} (ops : list op) (w : world) :
  registry_inv w → registry_inv (final (initialization ops w)).
Proof.
  revert w. induction ops as [|o ops IH]; intros w Hw; [done|].
  cbn [initialization].
  apply (preserves_bind (run_op o) (λ _, initialization ops));
    [apply preserves_run_op | intros _ w' Hw'; by apply IH | done].
Qed.

Lemma enabled_subset_available_witness :
  registry_inv
    (final (@initialization range_default
              [SetAvailableCipher_op Examples.aes;
               SetAvailableCipher_op Examples.pgp;
               SetAvailableHSM_op "mxc-scc2" Examples.scc;
               EnableCiphers_op; EnableHSM_op]
              (Examples.started ["OpenPGP"] "mxc-scc2:luks,cipher"))).
Proof.
  apply (@enabled_subset_available range_default).
  apply registry_inv_start. reflexivity.
Defined.

End RegistryFacts.

(* ===================================================================== *)
(** ** Facts about the response wrapper                                   *)
(* ===================================================================== *)

Module WrapperFacts.
Import GoStrings Http Wrapper StringFacts.

(** [old] occurs in [s]. *)
Definition occurs (old s : string) : Prop := ∃ pre post, s = pre ++ old ++ post.









Lemma occurs_tail (old seg : string) (a : ascii) :
  ¬ occurs old (String a seg) → ¬ occurs old seg.
Proof.
  intros Hocc (pre & post & ->). apply Hocc.
  exists (String a pre), post. by rewrite append_String.
Qed.


Lemma replace_from_last (tok new seg : string) :
  ¬ occurs tok seg → replace_from tok new seg 0 = seg.
Proof.
  induction seg as [|a seg IH]; intros Hocc; [done|].
  cbn [replace_from].
  destruct (HasPrefix (String a seg) tok) eqn:Hpre.
  - apply HasPrefix_iff in Hpre as [r Hr]. destruct Hocc.
    exists "", r. by rewrite append_empty.
  - f_equal. apply IH. by apply occurs_tail in Hocc.
Qed.


(** The writer that the wrapped handler's writes end up on: [w0] with the
    four headers set. *)
Definition secured (nonce : string) (w0 : response) : response :=
  mkResponse
    (Header_Set "Expires" "Fri, 07 Jan 1981 00:00:00 GMT"
       (Header_Set "Pragma" "no-cache"
          (Header_Set "Cache-Control"
             "no-cache, no-store, max-age=0, must-revalidate"
             (Header_Set "Content-Security-Policy" (csp nonce)
                (headers w0)))))
    (status w0) (body w0).

Lemma applyHeaders_run {R} (gen : nat → bool → R → (string * option error) * R)
    (h : Handler) (w0 : response) (r : Request) (rnd rnd' : R)
    (nonce : string) (err : option error) :
  gen nonceSize false rnd = ((nonce, err), rnd') →
  applyHeaders gen h w0 r rnd
  = (w (h _ _ (NewResponseNoncer (secured nonce w0) nonce) r), rnd').
Proof. intros Hgen. unfold applyHeaders. by rewrite Hgen. Qed.

Lemma secured_headers (nonce : string) (w0 : response) :
  headers (secured nonce w0) !! "Content-Security-Policy" = Some [csp nonce]
  ∧ headers (secured nonce w0) !! "Cache-Control"
    = Some ["no-cache, no-store, max-age=0, must-revalidate"]
  ∧ headers (secured nonce w0) !! "Pragma" = Some ["no-cache"]
  ∧ headers (secured nonce w0) !! "Expires"
    = Some ["Fri, 07 Jan 1981 00:00:00 GMT"].
Proof.
  unfold secured, Header_Set, Header. simpl.
  repeat split; by simplify_map_eq.
Qed.

Lemma noncer_Write (b : string) (wr : ResponseNoncer response) :
  nonce (fst (Write b wr)) = nonce wr
  ∧ body (w (fst (Write b wr)))
    = (body (w wr) ++ [ReplaceAll b nonceToken (nonce wr)])%list
  ∧ headers (w (fst (Write b wr))) = headers (w wr).
Proof. by destruct wr. Qed.



(** C10. When the generator returns an error with a string, the wrapper
    goes on with that string: the handler runs on the wrapper's writer made
    from it, the Content-Security-Policy header is set with the string
    after [nonce-], nothing else of the response is touched, a chunk that a
    handler writes goes out with the placeholder replaced by the string,
    and the run is the one of a generator that returned the same string
    and no error: the error is not returned, logged or looked at. *)
Theorem applyHeaders_ignores_error {R}
    (gen : nat → bool → R → (string * option error) * R)
    (h : Handler) (w0 : response) (r : Request) (rnd rnd' : R)
    (n : string) (e : error) :
  gen nonceSize false rnd = ((n, Some e), rnd') →
  applyHeaders gen h w0 r rnd
  = (w (h _ _ (mkResponseNoncer (secured n w0) n) r), rnd')
  ∧ applyHeaders gen h w0 r rnd
    = applyHeaders (λ _ _ _, ((n, None), rnd')) h w0 r rnd
  ∧ headers (secured n w0) !! "Content-Security-Policy"
    = Some ["default-src 'none'; script-src 'strict-dynamic' 'nonce-" ++ n
            ++ "' 'unsafe-eval'; style-src 'self' 'unsafe-inline'; img-src 'self'; connect-src 'self';"]
  ∧ status (secured n w0) = status w0
  ∧ body (secured n w0) = body w0
  ∧ headers (fst (applyHeaders gen (λ W _ w1 _, w1) w0 r rnd))
      !! "Content-Security-Policy"
    = Some ["default-src 'none'; script-src 'strict-dynamic' 'nonce-" ++ n
            ++ "' 'unsafe-eval'; style-src 'self' 'unsafe-inline'; img-src 'self'; connect-src 'self';"]
  ∧ (∀ b : string,
       body (fst (applyHeaders gen (λ W _ w1 _, fst (Write b w1)) w0 r rnd))
       = (body w0 ++ [ReplaceAll b nonceToken n])%list)
  ∧ ∀ (b : string) (wr : ResponseNoncer response),
      nonce wr = n →
      nonce (fst (Write b wr)) = n
      ∧ body (w (fst (Write b wr)))
        = (body (w wr) ++ [ReplaceAll b nonceToken n])%list.
Proof.
  intros Hgen.
  destruct (secured_headers n w0) as (Hcsp & _).
  split; [by rewrite (applyHeaders_run _ _ _ _ _ _ _ _ Hgen)|].
  split.
  { rewrite (applyHeaders_run _ _ _ _ _ _ _ _ Hgen).
    by erewrite applyHeaders_run. }
  split; [exact Hcsp|]. split; [done|]. split; [done|].
  split; [by rewrite (applyHeaders_run _ _ _ _ _ _ _ _ Hgen)|].
  split; [intros b; by rewrite (applyHeaders_run _ _ _ _ _ _ _ _ Hgen)|].
  intros b wr <-. by destruct (noncer_Write b wr) as (? & ? & _).
Qed.

Lemma applyHeaders_ignores_error_witness :
  headers (Examples.static MoreExamples.truncated_nonce)
    !! "Content-Security-Policy"
  = Some ["default-src 'none'; script-src 'strict-dynamic' 'nonce-Tm9u' 'unsafe-eval'; style-src 'self' 'unsafe-inline'; img-src 'self'; connect-src 'self';"]
  ∧ body (Examples.static MoreExamples.truncated_nonce)
    = ["<script nonce='Tm9u'>"; "aTm9ubTm9u"]
  ∧ status (Examples.static MoreExamples.truncated_nonce) = Some 200%Z.
Proof.
  unfold Examples.static.
  destruct (applyHeaders_ignores_error MoreExamples.truncated_nonce
              Examples.page Examples.unwritten Examples.get_index tt tt
              "Tm9u" "unexpected EOF" eq_refl) as (Hrun & _).
  rewrite Hrun. split; [reflexivity|]. split; reflexivity.
Defined.

End WrapperFacts.

(* ===================================================================== *)
(** ** Facts about the dispatcher                                         *)
(* ===================================================================== *)

Module ApiFacts.
Import GoStrings GoRegexp Http Registry Api StringFacts RegistryFacts.

(** *** The pattern on a URI of exactly its form *)

(** Every byte of [s] is in the class. *)
Fixpoint all_bytes (class : ascii → bool) (s : string) : bool :=
  match s with
  | EmptyString => true
  | String c s' => class c && all_bytes class s'
  end.

Lemma drop_bytes_append (p x : string) :
  drop_bytes (String.length p) (p ++ x) = x.
Proof. induction p as [|a p IH]; [by destruct x | apply IH]. Qed.

Lemma take_bytes_append (p x : string) :
  take_bytes (String.length p) (p ++ x) = p.
Proof.
  induction p as [|a p IH]; [by destruct x|].
  rewrite append_String. simpl. by rewrite IH.
Qed.

Lemma take_bytes_all (p : string) : take_bytes (String.length p) p = p.
Proof. induction p as [|a p IH]; [done|]. simpl. by rewrite IH. Qed.

Lemma run_length_all (class : ascii → bool) (s : string) :
  all_bytes class s = true → run_length class s = String.length s.
Proof.
  induction s as [|a s IH]; [done|]. simpl.
  intros [-> Hs]%andb_true_iff. by rewrite IH.
Qed.

Lemma run_length_stop (class : ascii → bool) (s rest : string) (c : ascii) :
  all_bytes class s = true → class c = false →
  run_length class (s ++ String c rest) = String.length s.
Proof.
  intros Hs Hc. induction s as [|a s IH].
  - rewrite append_empty. simpl. by rewrite Hc.
  - rewrite append_String. simpl in *.
    apply andb_true_iff in Hs as [-> Hs]. by rewrite IH.
Qed.

Lemma URIPattern_exact (name action : string) :
  name ≠ "" → all_bytes alnum name = true →
  action ≠ "" → all_bytes lower_digit_underscore action = true →
  FindStringSubmatch URIPattern ("/api/" ++ name ++ "/" ++ action)
  = ["/api/" ++ name ++ "/" ++ action; name; action].
Proof.
  intros Hname Halnum Haction Hlower.
  assert (Hhere :
    match_here URIPattern ("/api/" ++ name ++ "/" ++ action)
    = Some ("/api/" ++ name ++ "/" ++ action, [name; action])).
  { unfold URIPattern. cbn [match_here].
    rewrite (proj2 (HasPrefix_iff _ "/api/")) by by eexists.
    rewrite (drop_bytes_append "/api/").
    change ("/" ++ action) with (String "/" action).
    rewrite (run_length_stop alnum name action "/") by done.
    destruct (String.length name) as [|k] eqn:Hk.
    { by destruct name. }
    rewrite <- Hk. rewrite drop_bytes_append, take_bytes_append.
    change (String "/" action) with ("/" ++ action).
    rewrite (proj2 (HasPrefix_iff _ "/")) by by eexists.
    rewrite (drop_bytes_append "/").
    rewrite run_length_all by done.
    destruct (String.length action) as [|j] eqn:Hj.
    { by destruct action. }
    rewrite <- Hj. rewrite take_bytes_all.
    by rewrite append_empty_r. }
  destruct ("/api/" ++ name ++ "/" ++ action) eqn:Hs; [done|].
  cbn [FindStringSubmatch]. by rewrite Hhere.
Qed.

Section Facts.
Context {E : Type} `{Collaborators E}.

(** The state in which the outer [switch] of [apiHandler] is entered: the
    request line logged when debugging, the content type set. *)
Definition entered (r : Request) (s : state E) : state E :=
  mkState
    (if Debug (conf (reg s))
     then log_more [RemoteAddr r ++ " " ++ Method r ++ " " ++ RequestURI r]
                   (reg s)
     else reg s)
    (on_Header (Header_Set "Content-Type" "application/json") (resp s))
    (env s).

(** The state after [sendResponse(w, res)]. *)
Definition sent (res : jsonObject) (s : state E) : state E :=
  mkState
    (if Debug (conf (reg s))
     then log_more [jsonObject_String res] (reg s) else reg s)
    (fst (Write (jsonObject_String res) (resp s)))
    (env s).

Lemma sendResponse_run (res : jsonObject) (s : state E) :
  sendResponse res s = Done tt (sent res s).
Proof.
  destruct s as [rg rs e]. unfold sendResponse, sent.
  unfold mbind, M_bind, liftR, get_conf, get, fmt_Fprint, on_w, modify. simpl.
  by destruct (Debug (conf rg)).
Qed.

Lemma sent_response (res : jsonObject) (s : state E) :
  body (resp (sent res s)) = (body (resp s) ++ [jsonObject_String res])%list
  ∧ status (resp (sent res s)) = Some (default StatusOK (status (resp s)))
  ∧ headers (resp (sent res s)) = headers (resp s).
Proof. done. Qed.

Lemma entering {A} (r : Request) (k : M (state E) A) (s : state E) :
  (c ← liftR get_conf;
   (if Debug c
    then liftR (log_Print (RemoteAddr r ++ " " ++ Method r ++ " "
                             ++ RequestURI r))
    else mret tt);;
   on_w (on_Header (Header_Set "Content-Type" "application/json"));;
   k) s
  = k (entered r s).
Proof.
  destruct s as [rg rs e]. unfold entered.
  unfold mbind, M_bind, liftR, get_conf, get, on_w, modify. simpl.
  by destruct (Debug (conf rg)).
Qed.

Lemma apiHandler_refresh (r : Request) (s : state E) :
  RequestURI r = "/api/auth/refresh" →
  apiHandler r s
  = ('(validSessionID, _, _) ← session_Validate r;
     if validSessionID : bool then res ← refresh; sendResponse res
     else sendResponse invalidSession) (entered r s).
Proof.
  intros Huri. unfold apiHandler. rewrite entering.
  rewrite Huri. rewrite decide_False by done. by rewrite decide_True.
Qed.

Lemma apiHandler_gate (r : Request) (s : state E) :
  RequestURI r ≠ "/api/auth/login" →
  RequestURI r ≠ "/api/auth/refresh" →
  ∀ vs vx err s',
    session_Validate r (entered r s) = Done (vs, vx, err) s' →
    apiHandler r s
    = if negb (vs && vx) then
        match url_Parse (RequestURI r) with
        | None => Panic "invalid memory address or nil pointer dereference" s'
        | Some u =>
            if decide (Path u = "/api/file/upload") then
              match err with
              | Some err =>
                  Done tt (mkState (reg s') (Http.Error err 401 (resp s'))
                                   (env s'))
              | None =>
                  Panic "invalid memory address or nil pointer dereference" s'
              end
            else if decide (Path u = "/api/file/download") then
              if vs then
                match default [] (url_ParseQuery (RawQuery u) !! "id") with
                | id :: _ => fileDownloadByID id s'
                | [] => Panic "index out of range [0] with length 0" s'
                end
              else Done tt (sent invalidSession s')
            else Done tt (sent invalidSession s')
        end
      else handleRequest r s'.
Proof.
  intros Hlogin Hrefresh vs vx err s' Hval. unfold apiHandler.
  rewrite entering. rewrite !decide_False by done.
  rewrite (bind_Done _ _ _ _ _ Hval).
  destruct (negb (vs && vx)) eqn:Hneg.
  - destruct (url_Parse (RequestURI r)) as [u|]; [|done].
    repeat case_decide.
    + by destruct err.
    + destruct vs; [|apply sendResponse_run].
      by destruct (default [] (url_ParseQuery (RawQuery u) !! "id")).
    + apply sendResponse_run.
  - apply negb_false_iff in Hneg. by rewrite Hneg.
Qed.

(** C8. A request whose URI is [/api/auth/refresh] is decided by the
    session alone, whatever the validity of the XSRF token: with a valid
    session the result of [refresh] is sent, otherwise the envelope with
    status [INVALID_SESSION] and a nil response. *)
Theorem refresh_needs_session_only (r : Request) (s s' : state E)
    (vs vx : bool) (err : option error) :
  RequestURI r = "/api/auth/refresh" →
  session_Validate r (entered r s) = Done (vs, vx, err) s' →
  (vs = true → apiHandler r s = (res ← refresh; sendResponse res) s')
  ∧ (vs = false →
     apiHandler r s = Done tt (sent invalidSession s')
     ∧ body (resp (sent invalidSession s'))
       = (body (resp s') ++ [jsonObject_String invalidSession])%list)
  ∧ (∃ m, invalidSession = Some m
          ∧ m !! "status" = Some (string_value "INVALID_SESSION")
          ∧ m !! "response" = Some nil_value
          ∧ dom m = {["status"; "response"]}).
Proof.
  intros Huri Hval. rewrite apiHandler_refresh by done.
  rewrite (bind_Done _ _ _ _ _ Hval). split; [|split].
  - by intros ->.
  - intros ->. split; [apply sendResponse_run | done].
  - eexists. split; [reflexivity|]. split; [done|]. split; [done|].
    rewrite !dom_insert_L. set_solver.
Qed.

(** C5. A request other than login and refresh that is not fully valid,
    with a URI that parses, meets one of three shapes by its path. On
    [/api/file/upload] the error that the session store reported goes out
    through [http.Error] with status 401, and the handler panics on a nil
    error. On every path other than upload and download, and on the
    download path without a valid session, the [INVALID_SESSION] envelope
    is written, which sets no status other than the 200 of a plain write.
    On [/api/file/download] with a valid session the file is served by the
    first [id] of the query; but when the query has no [id] the request is
    neither served nor answered with the envelope: the handler panics on
    [p[id][0]], whatever the path says. *)
Theorem gate_rejection (r : Request) (s s' : state E)
    (vs vx : bool) (err : option error) (u : URL) :
  RequestURI r ≠ "/api/auth/login" →
  RequestURI r ≠ "/api/auth/refresh" →
  session_Validate r (entered r s) = Done (vs, vx, err) s' →
  vs && vx = false →
  url_Parse (RequestURI r) = Some u →
  (Path u = "/api/file/upload" →
   apiHandler r s
   = match err with
     | Some e =>
         Done tt (mkState (reg s') (Http.Error e 401 (resp s')) (env s'))
     | None => Panic "invalid memory address or nil pointer dereference" s'
     end
   ∧ ∀ e, status (Http.Error e 401 (resp s'))
          = Some (default 401%Z (status (resp s'))))
  ∧ (Path u = "/api/file/download" → vs = true →
     apiHandler r s
     = match default [] (url_ParseQuery (RawQuery u) !! "id") with
       | id :: _ => fileDownloadByID id s'
       | [] => Panic "index out of range [0] with length 0" s'
       end)
  ∧ (Path u ≠ "/api/file/upload" →
     Path u ≠ "/api/file/download" ∨ vs = false →
     apiHandler r s = Done tt (sent invalidSession s')
     ∧ body (resp (sent invalidSession s'))
       = (body (resp s') ++ [jsonObject_String invalidSession])%list
     ∧ status (resp (sent invalidSession s'))
       = Some (default StatusOK (status (resp s')))).
Proof.
  intros Hlogin Hrefresh Hval Hinvalid Hu.
  rewrite (apiHandler_gate r s Hlogin Hrefresh _ _ _ _ Hval).
  rewrite Hinvalid, Hu. simpl. split; [|split].
  - intros Hup. rewrite decide_True by done. split; [done|].
    intros e. unfold Http.Error. simpl. by destruct (status (resp s')).
  - intros Hdown ->. rewrite Hdown.
    rewrite decide_False by done. by rewrite decide_True.
  - intros Hup Hother. rewrite decide_False by done.
    split; [|done]. case_decide; [|done].
    by destruct Hother as [? | ->].
Qed.

(** C4. A request to [/api/file/download] with a valid session, an
    invalid XSRF token and no [id] in its query is not answered with an
    envelope: the handler panics on [p[id][0]] and writes nothing. *)
Theorem download_without_id_panics (r : Request) (s s' : state E)
    (err : option error) (u : URL) :
  RequestURI r ≠ "/api/auth/login" →
  RequestURI r ≠ "/api/auth/refresh" →
  session_Validate r (entered r s) = Done (true, false, err) s' →
  url_Parse (RequestURI r) = Some u →
  Path u = "/api/file/download" →
  url_ParseQuery (RawQuery u) !! "id" = None →
  apiHandler r s = Panic "index out of range [0] with length 0" s'.
Proof.
  intros Hlogin Hrefresh Hval Hu Hdown Hid.
  rewrite (apiHandler_gate r s Hlogin Hrefresh _ _ _ _ Hval).
  simpl. rewrite Hu, Hdown. rewrite decide_False by done.
  rewrite decide_True by done. by rewrite Hid.
Qed.

Lemma liftR_Done {A} (m : M world A) (rg : world) (rs : response) (e : E)
    (a : A) (rg' : world) :
  m rg = Done a rg' → liftR m (mkState rg rs e) = Done a (mkState rg' rs e).
Proof. intros Hm. unfold liftR. simpl. by rewrite Hm. Qed.

(** The state after the registry allocated one instance. *)
Definition allocating (s : state E) : state E :=
  mkState (allocated (reg s)) (resp s) (env s).

(** The dynamic route: the [default] case of [handleRequest]. *)
Lemma handleRequest_dynamic (r : Request) (s : state E) :
  switch (RequestURI r) commandTable = None →
  handleRequest r s
  = match FindStringSubmatch URIPattern (RequestURI r) with
    | [_; name; _] =>
        match map_get (availableCiphers (conf (reg s))) name with
        | Some val =>
            (res ← HandleRequest (made_from val (reg s)) r;
             if res is Some _ then sendResponse res else mret tt)
              (allocating s)
        | None => Done tt (sent notFound s)
        end
    | _ => Done tt (sent notFound s)
    end.
Proof.
  intros Hsw. unfold handleRequest. rewrite Hsw.
  assert (Hmiss : ∀ s0 : state E,
    (res ← mret notFound; if res is Some _ then sendResponse res else mret tt) s0
    = Done tt (sent notFound s0)).
  { intros s0. apply (sendResponse_run notFound s0). }
  destruct (FindStringSubmatch URIPattern (RequestURI r))
    as [|m0 [|name [|action [|extra m]]]] eqn:Hm;
    try (rewrite decide_False by (simpl; lia); apply Hmiss).
  rewrite decide_True by done. cbn [nth].
  destruct s as [rg rs e]. cbn [reg].
  destruct (map_get (availableCiphers (conf rg)) name) as [val|] eqn:Hav.
  - unfold mbind at 1, M_bind at 1.
    by rewrite (bind_Done _ _ _ _ _
                  (liftR_Done _ rg rs e _ _
                     (GetAvailableCipher_found rg name val Hav))).
  - unfold mbind at 1, M_bind at 1.
    rewrite (bind_Done _ _ _ _ _
               (liftR_Done _ rg rs e _ _
                  (GetAvailableCipher_unknown rg name Hav))).
    apply (sendResponse_run notFound (mkState rg rs e)).
Qed.

(** C3. An authenticated request whose URI is not in the fixed command
    table (the login and refresh URIs are answered before the table is
    consulted): when the pattern matches, the first capture is looked up in
    the available map, whatever the enabled map holds, and the request
    goes to [HandleRequest] of a new instance of the provider found, or
    to the not-found envelope when there is none; when the pattern does
    not match, the not-found envelope is sent. A URI of the exact form
    [/api/<name>/<action>] matches with [name] as the first capture. *)
Theorem dynamic_route_uses_available (r : Request) (s s' : state E)
    (err : option error) :
  RequestURI r ≠ "/api/auth/login" →
  RequestURI r ≠ "/api/auth/refresh" →
  session_Validate r (entered r s) = Done (true, true, err) s' →
  switch (RequestURI r) commandTable = None →
  (∀ m name action val,
     FindStringSubmatch URIPattern (RequestURI r) = [m; name; action] →
     map_get (availableCiphers (conf (reg s'))) name = Some val →
     apiHandler r s
     = (res ← HandleRequest (made_from val (reg s')) r;
        if res is Some _ then sendResponse res else mret tt) (allocating s'))
  ∧ (∀ m name action,
       FindStringSubmatch URIPattern (RequestURI r) = [m; name; action] →
       map_get (availableCiphers (conf (reg s'))) name = None →
       apiHandler r s = Done tt (sent notFound s'))
  ∧ (length (FindStringSubmatch URIPattern (RequestURI r)) ≠ 3 →
     apiHandler r s = Done tt (sent notFound s'))
  ∧ (∀ name action,
       name ≠ "" → all_bytes alnum name = true →
       action ≠ "" → all_bytes lower_digit_underscore action = true →
       FindStringSubmatch URIPattern ("/api/" ++ name ++ "/" ++ action)
       = ["/api/" ++ name ++ "/" ++ action; name; action])
  ∧ notFound
    = Some (<["status" := string_value "INVALID"]>
              (<["response" := strings_value ["invalid method"]]> ∅)).
Proof.
  intros Hlogin Hrefresh Hval Hsw.
  rewrite (apiHandler_gate r s Hlogin Hrefresh _ _ _ _ Hval). simpl.
  rewrite handleRequest_dynamic by done.
  split; [|split; [|split; [|split]]].
  - intros m name action val -> Hav. by rewrite Hav.
  - intros m name action -> Hav. by rewrite Hav.
  - intros Hlen.
    by destruct (FindStringSubmatch URIPattern (RequestURI r))
      as [|m0 [|name [|action [|extra m]]]].
  - apply URIPattern_exact.
  - done.
Qed.

End Facts.

Import Examples.

Lemma dynamic_route_uses_available_witness :
  (map_get (enabledCiphers (conf (reg idle))) "OpenPGP" = None
   ∧ ∃ s', handle (authenticated "/api/OpenPGP/whatever") = Done tt s'
           ∧ env s' = ["HandleRequest OpenPGP"])
  ∧ (∃ s', handle (authenticated "/api/Nonexistent/whatever") = Done tt s'
           ∧ env s' = [] ∧ body (resp s') = ["status=INVALID"]).
Proof.
  unfold handle.
  split.
  - split; [reflexivity|].
    destruct (@dynamic_route_uses_available _ journalling
                (authenticated "/api/OpenPGP/whatever") idle
                (entered (authenticated "/api/OpenPGP/whatever")
                   idle)
                None) as (Hfound & _); try done.
    rewrite (Hfound "/api/OpenPGP/whatever" "OpenPGP" "whatever" pgp);
      [|by vm_compute..].
    eexists. split; [vm_compute; reflexivity | reflexivity].
  - destruct (@dynamic_route_uses_available _ journalling
                (authenticated "/api/Nonexistent/whatever") idle
                (entered (authenticated "/api/Nonexistent/whatever")
                   idle)
                None) as (_ & Hmiss & _); try done.
    rewrite (Hmiss "/api/Nonexistent/whatever" "Nonexistent" "whatever");
      [|by vm_compute..].
    eexists. split; [reflexivity|]. split; reflexivity.
Defined.

Lemma refresh_needs_session_only_witness :
  (∃ s', handle (session_only "/api/auth/refresh") = Done tt s'
         ∧ env s' = ["refresh"] ∧ body (resp s') = ["status=OK"])
  ∧ (∃ s', handle (token_only "/api/auth/refresh") = Done tt s'
           ∧ env s' = [] ∧ body (resp s') = ["status=INVALID_SESSION"]).
Proof.
  unfold handle.
  split.
  - destruct (@refresh_needs_session_only _ journalling
                (session_only "/api/auth/refresh") idle
                (entered (session_only "/api/auth/refresh")
                   idle)
                true false (Some "missing XSRFToken") eq_refl eq_refl)
      as (Hvalid & _).
    rewrite (Hvalid eq_refl). eexists. split; [vm_compute; reflexivity|].
    split; reflexivity.
  - destruct (@refresh_needs_session_only _ journalling
                (token_only "/api/auth/refresh") idle
                (entered (token_only "/api/auth/refresh")
                   idle)
                false false (Some "invalid session") eq_refl eq_refl)
      as (_ & Hinvalid & _).
    destruct (Hinvalid eq_refl) as [Hrun _]. rewrite Hrun.
    eexists. split; [reflexivity|]. split; reflexivity.
Defined.

Lemma gate_rejection_witness :
  (∃ s', handle (session_only "/api/file/download?x=1")
         = Panic "index out of range [0] with length 0" s'
         ∧ body (resp s') = [] ∧ status (resp s') = None ∧ env s' = [])
  ∧ (∃ s', handle (session_only "/api/file/upload") = Done tt s'
           ∧ status (resp s') = Some 401%Z ∧ env s' = [])
  ∧ (∃ s', handle (session_only "/api/file/download?id=abc") = Done tt s'
           ∧ env s' = ["fileDownloadByID abc"])
  ∧ (∃ s', handle (session_only "/api/file/list") = Done tt s'
           ∧ status (resp s') = Some 200%Z
           ∧ body (resp s') = ["status=INVALID_SESSION"] ∧ env s' = []).
Proof.
  unfold handle.
  split; [|split; [|split]].
  - destruct (@gate_rejection _ journalling
                (session_only "/api/file/download?x=1") idle
                (entered (session_only "/api/file/download?x=1")
                   idle)
                true false (Some "missing XSRFToken")
                {| Path := "/api/file/download"; RawQuery := "x=1" |})
      as (_ & Hdownload & _); try done.
    rewrite (Hdownload eq_refl eq_refl).
    eexists. split; [vm_compute; reflexivity|]. by repeat split.
  - destruct (@gate_rejection _ journalling
                (session_only "/api/file/upload") idle
                (entered (session_only "/api/file/upload")
                   idle)
                true false (Some "missing XSRFToken")
                {| Path := "/api/file/upload"; RawQuery := "" |})
      as (Hupload & _); try done.
    destruct (Hupload eq_refl) as [Hrun _].
    rewrite Hrun. eexists. split; [reflexivity|]. split; reflexivity.
  - destruct (@gate_rejection _ journalling
                (session_only "/api/file/download?id=abc") idle
                (entered (session_only "/api/file/download?id=abc")
                   idle)
                true false (Some "missing XSRFToken")
                {| Path := "/api/file/download"; RawQuery := "id=abc" |})
      as (_ & Hdownload & _); try done.
    rewrite (Hdownload eq_refl eq_refl).
    eexists. split; [vm_compute; reflexivity | reflexivity].
  - destruct (@gate_rejection _ journalling
                (session_only "/api/file/list") idle
                (entered (session_only "/api/file/list")
                   idle)
                true false (Some "missing XSRFToken")
                {| Path := "/api/file/list"; RawQuery := "" |})
      as (_ & _ & Hother); try done.
    destruct Hother as (Hrun & _); [done | by left |].
    rewrite Hrun. eexists. split; [reflexivity|]. by repeat split.
Defined.

Lemma download_without_id_panics_witness :
  ∃ s', handle (session_only "/api/file/download") = Panic "index out of range [0] with length 0" s'
        ∧ body (resp s') = [].
Proof.
  unfold handle.
  eexists. split.
  - apply (@download_without_id_panics _ journalling
             (session_only "/api/file/download") idle _
             (Some "missing XSRFToken")
             {| Path := "/api/file/download"; RawQuery := "" |});
      done.
  - reflexivity.
Defined.

End ApiFacts.

(* ===================================================================== *)
(** ** More facts about the registry                                      *)
(* ===================================================================== *)

Module RegistryMore.
Import GoStrings Registry StringFacts RegistryFacts.

(** X1. Registering a provider and looking it up: [SetAvailableCipher]
    always returns; it binds the provider under the name the provider
    reports, making the available map if it was nil, and leaves every other
    available name, the enabled map, the allocator and the log as they
    were. The next [GetAvailableCipher] of that name returns a new instance
    that describes itself as the provider does, at the address the
    allocator had next. *)
Theorem register_then_lookup (c : cipherInterface) (w : world) :
  ∃ w1,
    SetAvailableCipher c w = Done tt w1
    ∧ map_get (availableCiphers (conf w1)) (Name (GetInfo c)) = Some c
    ∧ (∃ c' w2,
         GetAvailableCipher (Name (GetInfo c)) w1 = Done (inl c') w2
         ∧ GetInfo c' = GetInfo c ∧ cipher_ptr c' = heap w)
    ∧ (∀ k, k ≠ Name (GetInfo c) →
         map_get (availableCiphers (conf w1)) k
         = map_get (availableCiphers (conf w)) k)
    ∧ enabledCiphers (conf w1) = enabledCiphers (conf w)
    ∧ heap w1 = heap w ∧ logged w1 = logged w.
Proof.
  exists (register c w). split; [apply SetAvailableCipher_run|].
  assert (Hc : map_get (availableCiphers (conf (register c w)))
                 (Name (GetInfo c)) = Some c).
  { simpl. apply lookup_insert_eq. }
  split; [done|]. split; [|split; [|done]].
  - eexists _, _. split; [by apply GetAvailableCipher_found | done].
  - intros k Hk. simpl. rewrite lookup_insert_ne by done.
    by destruct (availableCiphers (conf w)).
Qed.

Lemma well_allocated_allocated (w : world) :
  well_allocated w → well_allocated (allocated w).
Proof. intros Hw c Hc. specialize (Hw c Hc). simpl. lia. Qed.

(** X2. Two lookups of one enabled name give two different instances, both
    describing themselves as the stored provider does, and leave the
    configuration as it was; on a registry whose stored instances all lie
    below the allocator's next address, neither of the two is the stored
    instance, and the registry stays such a registry. *)
Theorem GetCipher_twice (name : string) (val : cipherInterface) (w : world) :
  map_get (enabledCiphers (conf w)) name = Some val →
  ∃ c1 c2 w1 w2,
    GetCipher name w = Done (inl c1) w1
    ∧ GetCipher name w1 = Done (inl c2) w2
    ∧ c1 ≠ c2
    ∧ GetInfo c1 = GetInfo val ∧ GetInfo c2 = GetInfo val
    ∧ conf w2 = conf w
    ∧ (well_allocated w → c1 ≠ val ∧ c2 ≠ val ∧ well_allocated w2).
Proof.
  intros Hval.
  exists (made_from val w), (made_from val (allocated w)),
         (allocated w), (allocated (allocated w)).
  split; [by apply GetCipher_found|]. split; [by apply GetCipher_found|].
  split; [intros [= Heq]; lia|]. do 3 (split; [done|]).
  intros Hw.
  assert (Hs : stored w val) by (exists name; by right).
  split; [by apply made_from_fresh|]. split.
  - apply made_from_fresh; [by apply well_allocated_allocated | done].
  - by do 2 apply well_allocated_allocated.
Qed.

Lemma GetCipher_twice_witness :
  ∃ c1 c2 w1 w2,
    GetCipher "TOTP" Examples.serving = Done (inl c1) w1
    ∧ GetCipher "TOTP" w1 = Done (inl c2) w2
    ∧ cipher_ptr c1 = 5 ∧ cipher_ptr c2 = 6 ∧ c1 ≠ c2.
Proof.
  destruct (GetCipher_twice "TOTP" Examples.totp Examples.serving)
    as (c1 & c2 & w1 & w2 & H1 & H2 & Hne & _); [vm_compute; reflexivity|].
  exists c1, c2, w1, w2. split; [exact H1|]. split; [exact H2|].
  rewrite (GetCipher_found Examples.serving "TOTP" Examples.totp) in H1
    by (vm_compute; reflexivity).
  injection H1 as <- <-.
  rewrite (GetCipher_found _ "TOTP" Examples.totp) in H2
    by (vm_compute; reflexivity).
  injection H2 as <- <-. by repeat split.
Defined.

(** *** The loop of [EnableCiphers], step by step *)

(** The first statement of [EnableCiphers]: the enabled map is made. *)
Lemma EnableCiphers_make (w : world) :
  ((if enabledCiphers (conf w) is None
    then set_conf (with_enabledCiphers (Some ∅)) else mret tt) w)
  = Done tt (enable (default ∅ (enabledCiphers (conf w))) w).
Proof.
  unfold enable. destruct w as [c ? ? ?]. simpl.
  destruct c as [? ? ? ? en ? ? ?]. simpl. by destruct en.
Qed.

(** [EnableCiphers] on an empty list of names. *)
Lemma EnableCiphers_nil `{MapRange} (w : world) :
  Ciphers (conf w) = [] →
  EnableCiphers w
  = Done (Some (errors_New "missing cipher specification"))
         (log_more (diagnostic w)
            (enable (default ∅ (enabledCiphers (conf w))) w)).
Proof.
  intros Hnil. unfold EnableCiphers.
  unfold mbind at 1, M_bind at 1, get_conf at 1. simpl.
  rewrite (bind_Done _ _ _ _ _ (EnableCiphers_make w)).
  unfold mbind at 1, M_bind at 1, get_conf at 1. simpl.
  rewrite Hnil. simpl.
  by rewrite (bind_Done _ _ _ _ _ (PrintAvailableCiphers_run _)).
Qed.

(** X3. With an empty list of configured names [EnableCiphers] returns the
    error "missing cipher specification" after logging the diagnostic; the
    enabled map is made all the same, empty if it was nil and as it was
    otherwise, and the available map is not touched. *)
Theorem EnableCiphers_empty `{MapRange} (w : world) :
  Ciphers (conf w) = [] →
  ∃ w',
    EnableCiphers w
    = Done (Some (errors_New "missing cipher specification")) w'
    ∧ logged w' = (logged w ++ diagnostic w)%list
    ∧ enabledCiphers (conf w')
      = Some (default ∅ (enabledCiphers (conf w)))
    ∧ availableCiphers (conf w') = availableCiphers (conf w).
Proof.
  intros Hnil. eexists. split; [by apply EnableCiphers_nil | done].
Qed.

Lemma EnableCiphers_empty_witness :
  ∃ w',
    @EnableCiphers range_default (Examples.registered [] "off")
    = Done (Some "missing cipher specification") w'
    ∧ enabledCiphers (conf w') = Some ∅.
Proof.
  destruct (@EnableCiphers_empty range_default (Examples.registered [] "off")
              eq_refl) as (w' & Hrun & _ & Hen & _).
  exists w'. split; [exact Hrun | exact Hen].
Defined.

Lemma enable_same (w : world) (m : gmap string cipherInterface) :
  enabledCiphers (conf w) = Some m → enable m w = w.
Proof.
  intros Hm. unfold enable. destruct w as [c ? ? ?]. simpl in *. f_equal.
  destruct c; simpl in *. by subst.
Qed.

Lemma enable_from_found `{MapRange} (name : string) (names : list string)
    (w : world) (val : cipherInterface) (m : gmap string cipherInterface) :
  map_get (availableCiphers (conf w)) name = Some val →
  enabledCiphers (conf w) = Some m →
  enable_from (name :: names) w
  = enable_from names (enable (<[name := val]> m) w).
Proof.
  intros Hval Hm. cbn [enable_from].
  unfold mbind at 1, M_bind at 1, get_conf at 1. simpl. rewrite Hval.
  unfold mbind at 1, M_bind at 1. by rewrite assign_enabled_run, Hm.
Qed.

Lemma enable_from_missing `{MapRange} (name : string) (names : list string)
    (w : world) :
  map_get (availableCiphers (conf w)) name = None →
  enable_from (name :: names) w
  = Done (Some ("unsupported cipher name " ++ name))
         (log_more (diagnostic w) w).
Proof.
  intros Hval. cbn [enable_from].
  unfold mbind at 1, M_bind at 1, get_conf at 1. simpl. rewrite Hval.
  by rewrite (bind_Done _ _ _ _ _ (PrintAvailableCiphers_run w)).
Qed.

(** [EnableCiphers] on a non-empty list is its loop, run on the made
    map. *)
Lemma EnableCiphers_loop `{MapRange} (w : world) :
  Ciphers (conf w) ≠ [] →
  EnableCiphers w
  = enable_from (Ciphers (conf w))
      (enable (default ∅ (enabledCiphers (conf w))) w).
Proof.
  intros Hne. unfold EnableCiphers.
  unfold mbind at 1, M_bind at 1, get_conf at 1. simpl.
  rewrite (bind_Done _ _ _ _ _ (EnableCiphers_make w)).
  unfold mbind at 1, M_bind at 1, get_conf at 1. simpl.
  rewrite decide_False; [done|]. by destruct (Ciphers (conf w)).
Qed.

(** The loop up to the first name that is not available. *)
Lemma enable_from_prefix `{MapRange} (pre : list string) :
  ∀ (missing : string) (post : list string) (w : world)
    (m : gmap string cipherInterface),
    Forall (λ n, is_Some (map_get (availableCiphers (conf w)) n)) pre →
    map_get (availableCiphers (conf w)) missing = None →
    enabledCiphers (conf w) = Some m →
    ∃ m',
      enable_from (pre ++ missing :: post)%list w
      = Done (Some ("unsupported cipher name " ++ missing))
             (enable m' (log_more (diagnostic w) w))
      ∧ (∀ n, n ∈ pre → m' !! n = map_get (availableCiphers (conf w)) n)
      ∧ (∀ k, k ∉ pre → m' !! k = m !! k).
Proof.
  induction pre as [|name pre IH]; intros missing post w m Hpre Hmiss Hm.
  - exists m. split; [|split; [by intros n ?%elem_of_nil | done]].
    simpl app. rewrite enable_from_missing by done. f_equal.
    symmetry. by apply (enable_same (log_more (diagnostic w) w)).
  - apply Forall_cons in Hpre as [[val Hval] Hpre].
    simpl app. rewrite (enable_from_found _ _ _ val m) by done.
    destruct (IH missing post (enable (<[name := val]> m) w)
                (<[name := val]> m)) as (m' & Hrun & Hin & Hout);
      [done..|].
    exists m'. split; [by rewrite Hrun|]. split.
    + intros n [-> | Hn]%elem_of_cons.
      * destruct (decide (name ∈ pre)) as [Hn | Hn]; [by apply Hin|].
        by rewrite (Hout name Hn), lookup_insert_eq.
      * by apply Hin.
    + intros k [Hne Hk]%not_elem_of_cons.
      by rewrite (Hout k Hk), lookup_insert_ne.
Qed.

(** X4. [EnableCiphers] is not all-or-nothing. When the configured list is
    [pre], then a name that is not available, then [post], and all of [pre]
    is available, the error names that first missing name, the names of
    [pre] are left enabled, bound as the available map binds them, and
    every name outside [pre] is enabled exactly as it was before the call:
    the loop stopped before [post]. *)
Theorem EnableCiphers_first_missing `{MapRange} (w : world)
    (pre post : list string) (missing : string) :
  Ciphers (conf w) = (pre ++ missing :: post)%list →
  Forall (λ n, is_Some (map_get (availableCiphers (conf w)) n)) pre →
  map_get (availableCiphers (conf w)) missing = None →
  ∃ w',
    EnableCiphers w
    = Done (Some ("unsupported cipher name " ++ missing)) w'
    ∧ (∀ n, n ∈ pre →
         map_get (enabledCiphers (conf w')) n
         = map_get (availableCiphers (conf w)) n)
    ∧ (∀ k, k ∉ pre →
         map_get (enabledCiphers (conf w')) k
         = map_get (enabledCiphers (conf w)) k).
Proof.
  intros Hlist Hpre Hmiss.
  rewrite EnableCiphers_loop by (rewrite Hlist; by destruct pre).
  rewrite Hlist.
  destruct (enable_from_prefix pre missing post
              (enable (default ∅ (enabledCiphers (conf w))) w)
              (default ∅ (enabledCiphers (conf w))))
    as (m' & Hrun & Hin & Hout); [done..|].
  eexists. split; [exact Hrun|]. simpl. split; [done|].
  intros k Hk. rewrite (Hout k Hk). by destruct (enabledCiphers (conf w)).
Qed.

Lemma EnableCiphers_first_missing_witness :
  ∃ w',
    @EnableCiphers range_default
      (Examples.registered ["OpenPGP"; "Blowfish"; "TOTP"] "off")
    = Done (Some "unsupported cipher name Blowfish") w'
    ∧ map_get (enabledCiphers (conf w')) "OpenPGP" = Some Examples.pgp
    ∧ map_get (enabledCiphers (conf w')) "TOTP" = None.
Proof.
  destruct (@EnableCiphers_first_missing range_default
              (Examples.registered ["OpenPGP"; "Blowfish"; "TOTP"] "off")
              ["OpenPGP"] ["TOTP"] "Blowfish" eq_refl)
    as (w' & Hrun & Hin & Hout).
  - repeat constructor. by eexists.
  - reflexivity.
  - exists w'. split; [exact Hrun|]. split.
    + rewrite Hin; [reflexivity | apply list_elem_of_here].
    + rewrite Hout; [reflexivity|]. by intros [= ?]%list_elem_of_singleton.
Defined.

(** A loop over names that are all enabled as available changes nothing. *)
Lemma enable_from_again `{MapRange} (names : list string) (w : world)
    (m : gmap string cipherInterface) :
  enabledCiphers (conf w) = Some m →
  (∀ n, n ∈ names →
     is_Some (m !! n) ∧ m !! n = map_get (availableCiphers (conf w)) n) →
  enable_from names w = Done None w.
Proof.
  intros Hm. induction names as [|name names IH]; intros Hall; [done|].
  destruct (Hall name) as [[val Hval] Heq]; [apply list_elem_of_here|].
  rewrite (enable_from_found _ _ _ val m) by congruence.
  rewrite insert_id by done. rewrite enable_same by done.
  apply IH. intros n Hn. apply Hall. by apply list_elem_of_further.
Qed.

(** X5. A run of [EnableCiphers] that returned no error can be repeated:
    run again on the state it left, it returns no error and leaves that
    state as it is, log included. And a successful run only adds: a name
    that was enabled before it and is not in the configured list is still
    enabled, with the same provider. *)
Theorem EnableCiphers_idempotent `{MapRange} (w w1 : world) :
  EnableCiphers w = Done None w1 →
  EnableCiphers w1 = Done None w1
  ∧ (∀ k v, map_get (enabledCiphers (conf w)) k = Some v →
       k ∉ Ciphers (conf w) →
       map_get (enabledCiphers (conf w1)) k = Some v).
Proof.
  intros Hrun.
  destruct (EnableCiphers_run w) as (r & m' & Hrun' & _ & Hkeep & Hr).
  rewrite Hrun in Hrun'. destruct r as [e|]; [done|].
  injection Hrun' as ->. split.
  - assert (Hne : Ciphers (conf w) ≠ []).
    { intros Hnil. by rewrite (EnableCiphers_nil w Hnil) in Hrun. }
    rewrite EnableCiphers_loop by done. simpl.
    rewrite (enable_same _ m') by done.
    by apply (enable_from_again _ _ m').
  - intros k v Hv Hk. simpl. by rewrite (Hkeep k Hk).
Qed.

Lemma EnableCiphers_idempotent_witness :
  @EnableCiphers range_default Examples.serving = Done None Examples.serving.
Proof.
  apply (@EnableCiphers_idempotent range_default
           (Examples.registered ["AES-256-OFB"; "TOTP"] "off")).
  vm_compute. reflexivity.
Defined.

(** *** The options of an HSM directive, all of them valid *)

(** What the options do to a state, read off the list as a whole: the
    instance [h] is bound to the roles named, and its cipher goes into both
    maps when [cipher] is named. *)
Definition bound (h : HSMInterface) (options : list string) (w : world)
  : world :=
  let c := conf w in
  let named o := bool_decide (o ∈ options) in
  mkWorld
    (mkConfig (Debug c) (HSM c) (Ciphers c)
       (if named "cipher"
        then Some (<[Name (GetInfo (Cipher h)) := Cipher h]>
                     (default ∅ (availableCiphers c)))
        else availableCiphers c)
       (if named "cipher"
        then Some (<[Name (GetInfo (Cipher h)) := Cipher h]>
                     (default ∅ (enabledCiphers c)))
        else enabledCiphers c)
       (availableHSMs c)
       (if named "luks" then Some h else authHSM c)
       (if named "tls" then Some h else tlsHSM c))
    (heap w) (logged w) (notices w).

Lemma bound_nil (h : HSMInterface) (w : world) : bound h [] w = w.
Proof. destruct w as [c ? ? ?]. by destruct c. Qed.

Lemma bound_cons (h : HSMInterface) (o : string) (options : list string)
    (w w1 : world) :
  valid_option o → is_Some (enabledCiphers (conf w)) →
  hsm_option h o w = Done tt w1 →
  bound h options w1 = bound h (o :: options) w
  ∧ is_Some (enabledCiphers (conf w1)).
Proof.
  intros Ho [m Hm] Hrun.
  assert (Hother : ∀ o', o' ≠ o →
    bool_decide (o' ∈ o :: options) = bool_decide (o' ∈ options)).
  { intros o' Hne. apply bool_decide_ext. rewrite elem_of_cons.
    split; [by intros [? | ?] | by right]. }
  assert (Hthis : bool_decide (o ∈ o :: options) = true).
  { apply bool_decide_eq_true_2, list_elem_of_here. }
  destruct w as [c hp lg nt]. destruct c as [dbg hsm cs av en hs au tl].
  simpl in Hm. subst en.
  destruct Ho as [-> | [-> | ->]].
  - rewrite hsm_option_luks in Hrun. injection Hrun as <-.
    split; [|by eexists]. unfold bound. cbn -[bool_decide].
    rewrite Hthis, !Hother by done.
    by destruct (bool_decide ("luks" ∈ options)).
  - rewrite hsm_option_tls in Hrun. injection Hrun as <-.
    split; [|by eexists]. unfold bound. cbn -[bool_decide].
    rewrite Hthis, !Hother by done.
    by destruct (bool_decide ("tls" ∈ options)).
  - rewrite hsm_option_cipher, assign_enabled_run in Hrun. simpl in Hrun.
    injection Hrun as <-. split; [|by eexists]. unfold bound.
    cbn -[bool_decide]. rewrite Hthis, !Hother by done.
    destruct (bool_decide ("cipher" ∈ options)); [|done].
    by rewrite !insert_insert_eq.
Qed.

Lemma hsm_options_valid (h : HSMInterface) (options : list string) :
  ∀ w, Forall valid_option options →
       is_Some (enabledCiphers (conf w)) →
       hsm_options h options w = Done tt (bound h options w).
Proof.
  induction options as [|o options IH]; intros w Hall Hen.
  - by rewrite bound_nil.
  - apply Forall_cons in Hall as [Ho Hall]. cbn [hsm_options].
    destruct (hsm_option_valid h o w Ho)
      as [(w1 & Hrun & _) | (msg & w1 & _ & Hnone)].
    + destruct (bound_cons h o options w w1 Ho Hen Hrun) as [<- Hen1].
      rewrite (bind_Done _ _ _ _ _ Hrun). by apply IH.
    + rewrite Hnone in Hen. by destruct Hen.
Qed.

(** X6. For a directive [model:options] whose model is registered and
    whose options are all among [luks], [tls] and [cipher], on a registry
    whose enabled map is made: [EnableHSM] returns no error and makes
    exactly one new instance of the model; that instance is bound to the
    auth role if and only if [luks] is among the options, and to the TLS
    role if and only if [tls] is, a role that is not named keeping its
    binding; the cipher of the model is put into the available and into
    the enabled map if [cipher] is among the options, and both maps are
    left as they were if it is not. The order of the options and their
    repetition make no difference; the registered HSMs and the log are
    unchanged. *)
Theorem EnableHSM_roles (w : world) (val : HSMInterface) :
  ":"%char ∈ list_ascii_of_string (HSM (conf w)) →
  map_get (availableHSMs (conf w)) (directive_model (HSM (conf w)))
  = Some val →
  Forall valid_option (directive_options (HSM (conf w))) →
  is_Some (enabledCiphers (conf w)) →
  ∃ w',
    EnableHSM w = Done None w'
    ∧ heap w' = S (heap w)
    ∧ authHSM (conf w')
      = (if bool_decide ("luks" ∈ directive_options (HSM (conf w)))
         then Some (hsm_made_from val w) else authHSM (conf w))
    ∧ tlsHSM (conf w')
      = (if bool_decide ("tls" ∈ directive_options (HSM (conf w)))
         then Some (hsm_made_from val w) else tlsHSM (conf w))
    ∧ (if bool_decide ("cipher" ∈ directive_options (HSM (conf w)))
       then map_get (availableCiphers (conf w')) (Name (GetInfo (Cipher val)))
            = Some (Cipher val)
            ∧ map_get (enabledCiphers (conf w')) (Name (GetInfo (Cipher val)))
              = Some (Cipher val)
       else availableCiphers (conf w') = availableCiphers (conf w)
            ∧ enabledCiphers (conf w') = enabledCiphers (conf w))
    ∧ availableHSMs (conf w') = availableHSMs (conf w)
    ∧ logged w' = logged w.
Proof.
  intros Hcolon Hval Hall Hen.
  assert (Hoff : HSM (conf w) ≠ "off").
  { intros Hoff. rewrite Hoff in Hcolon. apply list_elem_of_In in Hcolon.
    simpl in Hcolon. intuition discriminate. }
  rewrite EnableHSM_run by done.
  rewrite decide_False by (apply Split_found in Hcolon; lia).
  rewrite Hval, hsm_options_valid by done.
  eexists. split; [reflexivity|]. unfold bound.
  cbn -[bool_decide]. do 3 (split; [done|]). split; [|done].
  destruct (bool_decide ("cipher" ∈ directive_options (HSM (conf w))));
    [|done].
  cbn -[bool_decide]. by rewrite !lookup_insert_eq.
Qed.

Lemma EnableHSM_roles_witness :
  ∃ w',
    EnableHSM (final (@EnableCiphers range_default
                 (Examples.registered ["OpenPGP"] "mxc-scc2:tls,luks")))
    = Done None w'
    ∧ authHSM (conf w') = Some {| hsm_ptr := 5; Cipher := Examples.scc_cipher |}
    ∧ tlsHSM (conf w') = authHSM (conf w')
    ∧ map_get (enabledCiphers (conf w')) "AES-256-SCC" = None.
Proof.
  destruct (EnableHSM_roles
              (final (@EnableCiphers range_default
                 (Examples.registered ["OpenPGP"] "mxc-scc2:tls,luks")))
              Examples.scc)
    as (w' & Hrun & _ & Hauth & Htls & Hmaps & _).
  - apply (bool_decide_unpack _). vm_compute. exact I.
  - reflexivity.
  - change (Forall valid_option ["tls"; "luks"]).
    repeat constructor; unfold valid_option; tauto.
  - vm_compute. by eexists.
  - exists w'. split; [exact Hrun|].
    rewrite Htls, Hauth. split; [reflexivity|]. split; [reflexivity|].
    change (bool_decide ("cipher" ∈ directive_options _)) with false in Hmaps.
    destruct Hmaps as [_ ->]. reflexivity.
Defined.

(** *** Lookup by extension *)

Lemma by_ext_some (ext : string) (l : list (string * cipherInterface))
    (k : string) (c : cipherInterface) :
  (k, c) ∈ l → Extension (GetInfo c) = ext →
  ∃ k' c', by_ext ext l = inl c' ∧ (k', c') ∈ l
           ∧ Extension (GetInfo c') = ext.
Proof.
  intros Hin Hext.
  induction l as [|[k0 c0] l IH]; [by apply elem_of_nil in Hin|].
  cbn [by_ext]. destruct (decide (Extension (GetInfo c0) = ext)) as [H0 | H0].
  - exists k0, c0. split; [done|]. split; [apply list_elem_of_here | done].
  - apply elem_of_cons in Hin as [[= -> ->] | Hin]; [done|].
    destruct (IH Hin) as (k' & c' & Hby & Hin' & Hext').
    exists k', c'. split; [done|].
    split; [by apply list_elem_of_further | done].
Qed.

(** X7. When an enabled provider is the only enabled one with its
    extension, the lookup by that extension returns that provider in
    whatever order [range] visits the map, and leaves the state as it
    is. *)
Theorem GetCipherByExt_unique `{MapRange} (w : world) (k : string)
    (c : cipherInterface) :
  map_get (enabledCiphers (conf w)) k = Some c →
  (∀ k' c', map_get (enabledCiphers (conf w)) k' = Some c' →
            Extension (GetInfo c') = Extension (GetInfo c) → c' = c) →
  GetCipherByExt (Extension (GetInfo c)) w = Done (inl c) w.
Proof.
  intros Hk Huniq. unfold GetCipherByExt, mbind, M_bind, get_conf. simpl.
  destruct (by_ext_some (Extension (GetInfo c))
              (range_opt (enabledCiphers (conf w))) k c)
    as (k' & c' & -> & Hin & Hext); [by apply range_opt_lookup | done |].
  apply range_opt_lookup in Hin. by rewrite (Huniq k' c' Hin Hext).
Qed.

Lemma GetCipherByExt_unique_witness :
  @GetCipherByExt range_default "totp" Examples.serving
  = Done (inl Examples.totp) Examples.serving.
Proof.
  apply (@GetCipherByExt_unique range_default Examples.serving "TOTP"
           Examples.totp); [reflexivity|].
  assert (Hm : enabledCiphers (conf Examples.serving)
               = Some (<["AES-256-OFB" := Examples.aes]>
                         (<["TOTP" := Examples.totp]> ∅)))
    by (vm_compute; reflexivity).
  rewrite Hm. simpl. intros k' c' Hk' Hext.
  apply lookup_insert_Some in Hk' as [[_ <-] | [_ Hk']]; [done|].
  apply lookup_insert_Some in Hk' as [[_ <-] | [_ Hk']]; [done|].
  by rewrite lookup_empty in Hk'.
Defined.

End RegistryMore.

(* ===================================================================== *)
(** ** Facts about toggling and about the defaults                        *)
(* ===================================================================== *)

Module ActivationFacts.
Import Registry RegistryFacts Activation.

Section Facts.
Context `{MapRange} {P : Type}.
Variable Activate : cipherInterface → bool → M (world * P) (option error).

(** The lines of one visit after the call has returned [r]. *)
Definition reported (r : option error) : list string :=
  match r with Some e => [e] | None => [] end.

(** A provider that behaves: its [Activate] returns from every state,
    leaves the enabled map alone and only adds to the log. *)
Definition behaves (activate : bool) (c : cipherInterface) : Prop :=
  ∀ s0 : world * P,
    ∃ r s1 more,
      Activate c activate s0 = Done r s1
      ∧ enabledCiphers (conf s1.1) = enabledCiphers (conf s0.1)
      ∧ logged s1.1 = (logged s0.1 ++ more)%list.

Lemma activate_each_run (activate : bool)
    (l : list (string * cipherInterface)) :
  ∀ s : world * P,
    (∀ k c, (k, c) ∈ l → behaves activate c) →
    ∃ s' more,
      activate_each Activate activate l s = Done tt s'
      ∧ enabledCiphers (conf s'.1) = enabledCiphers (conf s.1)
      ∧ logged s'.1 = (logged s.1 ++ more)%list
      ∧ ∀ k c, (k, c) ∈ l →
          ∃ s0 r s1 post,
            Activate c activate s0 = Done r s1
            ∧ logged s'.1 = (logged s1.1 ++ reported r ++ post)%list.
Proof.
  induction l as [|[k0 c0] l IH]; intros s Hall.
  - exists s, []. split; [done|]. split; [done|].
    split; [by rewrite app_nil_r|]. by intros k c ?%elem_of_nil.
  - destruct (Hall k0 c0 (list_elem_of_here _ _) s)
      as (r & s1 & more1 & Hcall & Hen1 & Hlog1).
    pose (s2 := ((log_more (reported r) s1.1, s1.2) : world * P)).
    assert (Hstep :
      (match r with
       | Some err => on_world (log_Print err)
       | None => mret tt
       end) s1 = Done tt s2).
    { subst s2. destruct s1 as [w1 p1]. destruct r as [e|]; simpl.
      - done.
      - unfold log_more. simpl. rewrite app_nil_r. by destruct w1. }
    destruct (IH s2) as (s' & more2 & Hrun & Hen2 & Hlog2 & Hvisits).
    { intros k c Hin. apply (Hall k c). by apply list_elem_of_further. }
    exists s', (more1 ++ reported r ++ more2)%list.
    split; [|split; [|split]].
    + cbn [activate_each]. rewrite (bind_Done _ _ _ _ _ Hcall).
      by rewrite (bind_Done _ _ _ _ _ Hstep).
    + by rewrite Hen2, <- Hen1.
    + rewrite Hlog2. subst s2. simpl. rewrite Hlog1.
      by rewrite <- !app_assoc.
    + intros k c [[= -> ->] | Hin]%elem_of_cons.
      * exists s, r, s1, more2. split; [done|].
        rewrite Hlog2. subst s2. simpl. by rewrite <- app_assoc.
      * by apply (Hvisits k c).
Qed.

(** X8. When the [Activate] of every enabled provider returns, leaves the
    enabled map alone and only adds to the log, whatever else it does to
    the provider or to the process: [ActivateCiphers] returns, and returns
    nothing, whether calls failed or not. Every enabled provider has been
    called, and the error that its call returned is in the log right after
    what the call itself logged: a failure is logged, it does not stop the
    loop and it does not reach the caller. The enabled map is as before and
    the log has only grown. *)
Theorem ActivateCiphers_best_effort (activate : bool) (s : world * P) :
  (∀ k c, map_get (enabledCiphers (conf s.1)) k = Some c →
          behaves activate c) →
  ∃ s' more,
    ActivateCiphers Activate activate s = Done tt s'
    ∧ enabledCiphers (conf s'.1) = enabledCiphers (conf s.1)
    ∧ logged s'.1 = (logged s.1 ++ more)%list
    ∧ ∀ k c, map_get (enabledCiphers (conf s.1)) k = Some c →
        ∃ s0 r s1 post,
          Activate c activate s0 = Done r s1
          ∧ logged s'.1 = (logged s1.1 ++ reported r ++ post)%list.
Proof.
  intros Hall.
  destruct (activate_each_run activate
              (range_opt (enabledCiphers (conf s.1))) s)
    as (s' & more & Hrun & Hen & Hlog & Hvisits).
  { intros k c Hin. apply (Hall k c). by apply range_opt_lookup. }
  exists s', more. split; [|split; [done|split; [done|]]].
  - unfold ActivateCiphers, mbind, M_bind, on_world, get_conf. simpl.
    destruct s as [w p]. exact Hrun.
  - intros k c Hk. apply (Hvisits k c). by apply range_opt_lookup.
Qed.

End Facts.

(** Providers that note each toggle in a journal of their own and in the
    status log; TOTP fails to activate. *)
Definition toggling (c : cipherInterface) (on : bool)
  : M (world * list string) (option error) := λ s,
  Done (if decide (Name (GetInfo c) = "TOTP")
        then Some (errors_New "TOTP: no key") else None)
       (mkWorld (conf s.1) (heap s.1)
          (logged s.1 ++ ["toggle " ++ Name (GetInfo c)])
          (notices s.1),
        (s.2 ++ [Name (GetInfo c)])%list).

Lemma toggling_behaves (on : bool) (c : cipherInterface) :
  behaves toggling on c.
Proof. intros s0. by eexists _, _, _. Qed.

Lemma ActivateCiphers_best_effort_witness :
  ∃ s',
    @ActivateCiphers range_default _ toggling true (Examples.serving, [])
    = Done tt s'
    ∧ s'.2 ≡ₚ ["AES-256-OFB"; "TOTP"]
    ∧ "TOTP: no key" ∈ logged s'.1
    ∧ enabledCiphers (conf s'.1) = enabledCiphers (conf Examples.serving).
Proof.
  destruct (@ActivateCiphers_best_effort range_default _ toggling true
              (Examples.serving, []))
    as (s' & more & Hrun & Hen & _ & _).
  { intros k c _. apply toggling_behaves. }
  exists s'. split; [exact Hrun|]. split; [|split; [|exact Hen]].
  - vm_compute in Hrun. injection Hrun as <-. simpl.
    apply (bool_decide_unpack _). vm_compute. exact I.
  - vm_compute in Hrun. injection Hrun as <-.
    apply (bool_decide_unpack _). vm_compute. exact I.
Defined.

End ActivationFacts.

Module DefaultsFacts.
Import GoStrings Registry Settings RegistryFacts.

(** The process state with the first half of [conf] as [SetDefaults]
    leaves it. *)
Definition defaulted (o : settings) (w : world) : world :=
  mkWorld (SetDefaults (conf w) o).1 (heap w) (logged w) (notices w).

(** X9. After [SetDefaults], whatever the configuration was: [EnableHSM]
    does nothing, setting the time is disabled, and [EnableCiphers]
    returns no error exactly when OpenPGP, AES-256-OFB and TOTP are all
    three available; it then leaves the three enabled, bound as the
    available map binds them. In either case a name other than the three
    is enabled as it was, and the available map is the one [SetDefaults]
    found. *)
Theorem defaults_enable `{MapRange} (o : settings) (w : world) :
  EnableHSM (defaulted o w) = Done None (defaulted o w)
  ∧ SetTime (SetDefaults (conf w) o).2 = false
  ∧ ∃ r w1,
      EnableCiphers (defaulted o w) = Done r w1
      ∧ (r = None
         ↔ ∀ n, n ∈ ["OpenPGP"; "AES-256-OFB"; "TOTP"] →
             is_Some (map_get (availableCiphers (conf w)) n))
      ∧ (r = None →
         ∀ n, n ∈ ["OpenPGP"; "AES-256-OFB"; "TOTP"] →
           map_get (enabledCiphers (conf w1)) n
           = map_get (availableCiphers (conf w)) n)
      ∧ (∀ k, k ∉ ["OpenPGP"; "AES-256-OFB"; "TOTP"] →
           map_get (enabledCiphers (conf w1)) k
           = map_get (enabledCiphers (conf w)) k)
      ∧ availableCiphers (conf w1) = availableCiphers (conf w).
Proof.
  split; [by apply EnableHSM_off|]. split; [done|].
  destruct (EnableCiphers_run (defaulted o w))
    as (r & m' & Hrun & _ & Hkeep & Hr).
  eexists r, _. split; [exact Hrun|]. simpl in *.
  split; [|split; [|split; [exact Hkeep | done]]].
  - split.
    + intros ->. intros n Hn. destruct (Hr n Hn) as [Hsome Heq].
      by rewrite <- Heq.
    + intros Hall. destruct r as [e|]; [|done].
      destruct Hr as [Hnil | (n & Hn & Hnone)]; [done|].
      destruct (Hall n Hn) as [v Hv]. by rewrite Hnone in Hv.
  - intros ->. intros n Hn. by destruct (Hr n Hn) as [_ ->].
Qed.

End DefaultsFacts.

(* ===================================================================== *)
(** ** More facts about the response wrapper                          *)
(* ===================================================================== *)

Module WrapperMore.
Import GoStrings Http Wrapper StringFacts WrapperFacts.

(** *** Handlers that issue a fixed sequence of calls on their writer *)

(** One call on an [http.ResponseWriter]. *)
Inductive call : Type :=
| Set_call (key value : string)
| Write_call (b : string)
| WriteHeader_call (i : Z).

Definition do_call `{ResponseWriter W} (c : call) (w0 : W) : W :=
  match c with
  | Set_call key value => on_Header (Header_Set key value) w0
  | Write_call b => fst (Write b w0)
  | WriteHeader_call i => WriteHeader i w0
  end.

(** The handler that, for a request, issues the calls of [script] in
    order. *)
Definition play (script : Request → list call) : Handler :=
  λ W _ w0 r, foldl (λ w1 c, do_call c w1) w0 (script r).

(** The same call with the placeholder replaced in what it writes. *)
Definition substitute (n : string) (c : call) : call :=
  match c with
  | Write_call b => Write_call (ReplaceAll b nonceToken n)
  | _ => c
  end.

Lemma do_call_noncer `{ResponseWriter W} (c : call) (wr : ResponseNoncer W) :
  w (do_call c wr) = do_call (substitute (nonce wr) c) (w wr)
  ∧ nonce (do_call c wr) = nonce wr.
Proof.
  destruct wr as [w0 n]. destruct c as [key value | b | i]; simpl; try done.
  by destruct (Write (ReplaceAll b nonceToken n) w0).
Qed.

Lemma play_noncer `{ResponseWriter W} (calls : list call) :
  ∀ wr : ResponseNoncer W,
    w (foldl (λ w1 c, do_call c w1) wr calls)
    = foldl (λ w1 c, do_call c w1) (w wr) (substitute (nonce wr) <$> calls).
Proof.
  induction calls as [|c calls IH]; intros wr; [done|]. simpl.
  destruct (do_call_noncer c wr) as [Hw Hn]. by rewrite IH, Hw, Hn.
Qed.

(** X10. A handler that issues any sequence of calls on its writer
    (header settings, writes, status codes), served through the wrapper,
    leaves the response that the same sequence leaves on the underlying
    writer once the four security headers are set, with the placeholder
    replaced in the argument of every write: the calls reach the
    underlying writer one for one and in order, and [Header] and
    [WriteHeader] pass through unchanged, so a handler can overwrite the
    headers the wrapper set. *)
Theorem wrapper_rewrites_writes {R}
    (gen : nat → bool → R → (string * option error) * R)
    (script : Request → list call) (w0 : response) (r : Request)
    (rnd rnd' : R) (n : string) (err : option error) :
  gen nonceSize false rnd = ((n, err), rnd') →
  applyHeaders gen (play script) w0 r rnd
  = (play (λ r, substitute n <$> script r) _ _ (secured n w0) r, rnd').
Proof.
  intros Hgen. rewrite (applyHeaders_run _ _ _ _ _ _ _ _ Hgen).
  f_equal. unfold play. apply (play_noncer (script r)).
Qed.

(** A handler that sets a policy of its own, answers 404 and writes a
    chunk with the placeholder; what it leaves behind the wrapper. *)
Definition missing_page : Handler :=
  play (λ _, [Set_call "Content-Security-Policy" "default-src 'self'";
              WriteHeader_call 404;
              Write_call "a{{ nonce }}"]).
Definition missing : response :=
  fst (applyHeaders Examples.fixed_nonce missing_page Examples.unwritten
         Examples.get_index tt).

Lemma wrapper_rewrites_writes_witness :
  status missing = Some 404%Z
  ∧ headers missing !! "Content-Security-Policy" = Some ["default-src 'self'"]
  ∧ headers missing !! "Pragma" = Some ["no-cache"]
  ∧ body missing = ["aTm9uY2U="].
Proof.
  unfold missing, missing_page.
  rewrite (wrapper_rewrites_writes Examples.fixed_nonce _ Examples.unwritten
             Examples.get_index tt tt "Tm9uY2U=" None eq_refl).
  by repeat split.
Defined.

(** *** Chunks without a whole placeholder *)

(** [strings.Contains(s, old)], by search from the left. *)
Fixpoint contains (old s : string) : bool :=
  HasPrefix s old
  || match s with
     | EmptyString => false
     | String _ s' => contains old s'
     end.

Lemma contains_occurs (old s : string) :
  contains old s = true ↔ occurs old s.
Proof.
  induction s as [|a s IH].
  - cbn [contains]. rewrite orb_false_r, HasPrefix_iff. split.
    + intros [r Hr]. exists "", r. by rewrite append_empty.
    + intros (pre & post & Heq). destruct pre; [by exists post|done].
  - cbn [contains]. rewrite orb_true_iff, IH, HasPrefix_iff. split.
    + intros [[r Hr] | (pre & post & ->)].
      * exists "", r. by rewrite append_empty.
      * exists (String a pre), post. by rewrite append_String.
    + intros (pre & post & Heq). destruct pre as [|b pre].
      * left. by exists post.
      * right. rewrite append_String in Heq. injection Heq as -> ->.
        by exists pre, post.
Qed.

(** Writing the chunks one after the other. *)
Definition write_all `{ResponseWriter W} (chunks : list string) (w0 : W) : W :=
  foldl (λ w1 b, fst (Write b w1)) w0 chunks.

(** X11. Substitution is per call of [Write]: chunks none of which
    contains the whole placeholder are passed on as they are, one for one,
    and the headers are not touched. A placeholder that a handler splits
    over two writes is therefore not replaced. *)
Theorem chunks_without_token_pass (chunks : list string)
    (wr : ResponseNoncer response) :
  Forall (λ b, contains nonceToken b = false) chunks →
  body (w (write_all chunks wr)) = (body (w wr) ++ chunks)%list
  ∧ headers (w (write_all chunks wr)) = headers (w wr).
Proof.
  revert wr. induction chunks as [|b chunks IH]; intros wr Hall.
  - simpl. by rewrite app_nil_r.
  - apply Forall_cons in Hall as [Hb Hall]. cbn [write_all foldl].
    destruct (IH (fst (Write b wr)) Hall) as [Hbody Hhdr].
    unfold write_all in *. rewrite Hbody, Hhdr.
    destruct (noncer_Write b wr) as (_ & -> & ->).
    unfold ReplaceAll. rewrite replace_from_last.
    + by rewrite <- app_assoc.
    + rewrite <- contains_occurs. by rewrite Hb.
Qed.

Lemma chunks_without_token_pass_witness :
  body (w (write_all ["<p>{{ non"; "ce }}</p>"]
             (NewResponseNoncer Examples.unwritten "Tm9uY2U=")))
  = ["<p>{{ non"; "ce }}</p>"]
  ∧ contains nonceToken ("<p>{{ non" ++ "ce }}</p>") = true.
Proof.
  split; [|reflexivity].
  apply (chunks_without_token_pass ["<p>{{ non"; "ce }}</p>"]
           (NewResponseNoncer Examples.unwritten "Tm9uY2U=")).
  repeat constructor.
Defined.

(** *** What [Write] reports *)





End WrapperMore.

(* ===================================================================== *)
(** ** More facts about the dispatcher                                *)
(* ===================================================================== *)

Module ApiMore.
Import GoStrings GoRegexp Http Registry Api StringFacts RegistryFacts ApiFacts.

#[export] Instance luksMode_eq_dec : EqDecision luksMode.
Proof. solve_decision. Defined.
#[export] Instance command_eq_dec : EqDecision command.
Proof. solve_decision. Defined.

(** *** The [switch] over string constants *)

Lemma switch_found {A} (x : string) (a : A) (cases : list (string * A)) :
  NoDup cases.*1 → (x, a) ∈ cases → switch x cases = Some a.
Proof.
  induction cases as [|[k b] cases IH]; [by intros _ ?%elem_of_nil|].
  intros [Hk Hnd]%NoDup_cons Hin. cbn [switch].
  apply elem_of_cons in Hin as [[= -> ->] | Hin].
  - by rewrite decide_True.
  - rewrite decide_False; [by apply IH|]. intros ->. apply Hk.
    apply list_elem_of_fmap. by exists (k, a).
Qed.

Lemma switch_none {A} (x : string) (cases : list (string * A)) :
  x ∉ cases.*1 → switch x cases = None.
Proof.
  induction cases as [|[k b] cases IH]; [done|].
  intros [Hne Hin]%not_elem_of_cons. cbn [switch].
  rewrite decide_False by done. by apply IH.
Qed.

Lemma commandTable_NoDup : NoDup commandTable.*1.
Proof. apply (bool_decide_unpack _). vm_compute. exact I. Qed.

Lemma commandTable_match :
  Forall (λ k, length (FindStringSubmatch URIPattern k) = 3) commandTable.*1.
Proof. apply (bool_decide_unpack _). vm_compute. exact I. Qed.

(** *** The pattern on a URI that goes on after the action *)

Lemma URIPattern_then (name action rest : string) (c : ascii) :
  name ≠ "" → all_bytes alnum name = true →
  action ≠ "" → all_bytes lower_digit_underscore action = true →
  lower_digit_underscore c = false →
  FindStringSubmatch URIPattern
    ("/api/" ++ name ++ "/" ++ action ++ String c rest)
  = ["/api/" ++ name ++ "/" ++ action; name; action].
Proof.
  intros Hname Halnum Haction Hlower Hc.
  assert (Hhere :
    match_here URIPattern ("/api/" ++ name ++ "/" ++ action ++ String c rest)
    = Some ("/api/" ++ name ++ "/" ++ action, [name; action])).
  { unfold URIPattern. cbn [match_here].
    rewrite (proj2 (HasPrefix_iff _ "/api/")) by by eexists.
    rewrite (drop_bytes_append "/api/").
    change ("/" ++ action ++ String c rest)
      with (String "/" (action ++ String c rest)).
    rewrite (run_length_stop alnum name _ "/") by done.
    destruct (String.length name) as [|k] eqn:Hk.
    { by destruct name. }
    rewrite <- Hk. rewrite drop_bytes_append, take_bytes_append.
    change (String "/" (action ++ String c rest))
      with ("/" ++ action ++ String c rest).
    rewrite (proj2 (HasPrefix_iff _ "/")) by by eexists.
    rewrite (drop_bytes_append "/").
    rewrite (run_length_stop lower_digit_underscore action rest c) by done.
    destruct (String.length action) as [|j] eqn:Hj.
    { by destruct action. }
    rewrite <- Hj. rewrite take_bytes_append.
    by rewrite append_empty_r. }
  destruct ("/api/" ++ name ++ "/" ++ action ++ String c rest) eqn:Hs; [done|].
  cbn [FindStringSubmatch]. by rewrite Hhere.
Qed.

Lemma commandTable_no_query :
  Forall (λ k, "?"%char ∉ list_ascii_of_string k) commandTable.*1.
Proof. apply (bool_decide_unpack _). vm_compute. exact I. Qed.

Lemma list_ascii_of_string_append (x y : string) :
  list_ascii_of_string (x ++ y)
  = (list_ascii_of_string x ++ list_ascii_of_string y)%list.
Proof.
  induction x as [|a x IH]; [done|]. rewrite append_String. simpl.
  by rewrite IH.
Qed.

Section More.
Context {E : Type} `{Collaborators E}.

(** X13. A request whose URI is one of the 26 fixed routes is served by
    the handler that the table binds to that URI, and the result is sent
    unless it is nil; the upload handler writes its own response and
    nothing is sent after it. The registry is not consulted: a fixed route
    wins although its URI also matches [URIPattern], with three
    submatches, whatever provider is available under the name of its first
    segment. *)
Theorem fixed_routes_take_precedence (r : Request) (s : state E)
    (cmd : command) :
  (RequestURI r, cmd) ∈ commandTable →
  handleRequest r s
  = (if decide (cmd = fileUpload)
     then (serve fileUpload r;; mret tt) s
     else (res ← serve cmd r;
           if res is Some _ then sendResponse res else mret tt) s)
  ∧ length (FindStringSubmatch URIPattern (RequestURI r)) = 3.
Proof.
  intros Hin. split.
  - unfold handleRequest.
    rewrite (switch_found _ cmd _ commandTable_NoDup Hin).
    destruct (decide (cmd = fileUpload)) as [-> | Hne].
    + unfold mbind, M_bind. by destruct (serve fileUpload r s).
    + by destruct cmd.
  - pose proof commandTable_match as Hall. rewrite Forall_forall in Hall.
    apply Hall, list_elem_of_fmap. by exists (RequestURI r, cmd).
Qed.

(** X14. The table is compared with the whole request URI, query
    included. A URI of the form [/api/<name>/<action>?<query>] is
    therefore never a fixed route, also when [/api/<name>/<action>] is
    one: it takes the dynamic route, where the provider available under
    [<name>] gets the request on a new instance and its result is sent
    unless nil, and "invalid method" is sent when no provider has that
    name. *)
Theorem query_bypasses_table (r : Request) (s : state E)
    (name action q : string) :
  RequestURI r = "/api/" ++ name ++ "/" ++ action ++ "?" ++ q →
  name ≠ "" → all_bytes alnum name = true →
  action ≠ "" → all_bytes lower_digit_underscore action = true →
  handleRequest r s
  = match map_get (availableCiphers (conf (reg s))) name with
    | Some val =>
        (res ← HandleRequest (made_from val (reg s)) r;
         if res is Some _ then sendResponse res else mret tt) (allocating s)
    | None => Done tt (sent notFound s)
    end.
Proof.
  intros Huri Hname Halnum Haction Hlower.
  assert (Hsw : switch (RequestURI r) commandTable = None).
  { apply switch_none. intros Hin.
    pose proof commandTable_no_query as Hall. rewrite Forall_forall in Hall.
    apply (Hall _ Hin). rewrite Huri, !list_ascii_of_string_append.
    rewrite !elem_of_app. do 4 right. left. apply list_elem_of_here. }
  rewrite handleRequest_dynamic by done. rewrite Huri.
  change ("?" ++ q) with (String "?" q).
  by rewrite URIPattern_then.
Qed.

(** X15. A request that is neither a login nor a refresh and whose
    session or XSRF token is not valid reaches no handler: the run of
    [apiHandler] is the same whatever [login], [refresh], the handlers of
    the table and [HandleRequest] of the providers would do. It depends on
    the session validation, the URL parser, the rendering of the envelope
    and [fileDownloadByID], the one exception, only. *)
Theorem invalid_request_reaches_no_handler (C1 C2 : Collaborators E)
    (r : Request) (s s' : state E) (vs vx : bool) (err : option error) :
  (∀ res, @jsonObject_String E C1 res = @jsonObject_String E C2 res) →
  (∀ uri, @url_Parse E C1 uri = @url_Parse E C2 uri) →
  (∀ q, @url_ParseQuery E C1 q = @url_ParseQuery E C2 q) →
  (∀ r0 s0, @session_Validate E C1 r0 s0 = @session_Validate E C2 r0 s0) →
  (∀ id s0, @fileDownloadByID E C1 id s0 = @fileDownloadByID E C2 id s0) →
  RequestURI r ≠ "/api/auth/login" →
  RequestURI r ≠ "/api/auth/refresh" →
  @session_Validate E C1 r (entered r s) = Done (vs, vx, err) s' →
  vs && vx = false →
  @apiHandler E C1 r s = @apiHandler E C2 r s.
Proof.
  intros Hstr Hparse Hquery Hval Hdown Hlogin Hrefresh Hrun Hinvalid.
  rewrite (@apiHandler_gate E C1 r s Hlogin Hrefresh _ _ _ _ Hrun).
  rewrite Hval in Hrun.
  rewrite (@apiHandler_gate E C2 r s Hlogin Hrefresh _ _ _ _ Hrun).
  rewrite Hinvalid. simpl. rewrite Hparse.
  unfold sent. rewrite Hstr.
  destruct (@url_Parse E C2 (RequestURI r)) as [u|]; [|done].
  repeat case_decide; try done.
  destruct vs; [|done]. rewrite Hquery.
  destruct (default [] _) as [|id ids]; [done | apply Hdown].
Qed.

End More.

Import Examples MoreExamples.

Lemma fixed_routes_take_precedence_witness :
  env (final (@handleRequest _ journalling (authenticated "/api/file/list")
                shadowing))
  = ["serve"]
  ∧ length (FindStringSubmatch URIPattern "/api/file/list") = 3.
Proof.
  destruct (@fixed_routes_take_precedence _ journalling
              (authenticated "/api/file/list") shadowing fileList)
    as [Hrun Hlen].
  - apply (bool_decide_unpack _). vm_compute. exact I.
  - split; [rewrite Hrun; vm_compute; reflexivity | exact Hlen].
Defined.

Lemma query_bypasses_table_witness :
  env (final (@handleRequest _ journalling
                (authenticated "/api/file/list?x=1") shadowing))
  = ["HandleRequest file"].
Proof.
  rewrite (@query_bypasses_table _ journalling
             (authenticated "/api/file/list?x=1") shadowing
             "file" "list" "x=1");
    [vm_compute; reflexivity | reflexivity | done | reflexivity | done
     | reflexivity].
Defined.

Lemma invalid_request_reaches_no_handler_witness :
  @apiHandler _ journalling (session_only "/api/file/list") idle
  = @apiHandler _ unreachable (session_only "/api/file/list") idle.
Proof.
  eapply (invalid_request_reaches_no_handler journalling unreachable).
  - intros; reflexivity.
  - intros; reflexivity.
  - intros; reflexivity.
  - intros; reflexivity.
  - intros; reflexivity.
  - discriminate.
  - discriminate.
  - reflexivity.
  - vm_compute. reflexivity.
Defined.

End ApiMore.

(* ===================================================================== *)
(** ** Facts about strconv and about setting the clock                *)
(* ===================================================================== *)

Module StrconvFacts.
Import GoStrconv.

Lemma digit_of_digit (d : N) :
  (d < 10)%N → digit_of (ascii_of_N (48 + d)) = Some d.
Proof.
  intros Hd. unfold digit_of. rewrite N_ascii_embedding by lia.
  replace (48 <=? 48 + d)%N with true by (symmetry; apply N.leb_le; lia).
  replace (48 + d <=? 57)%N with true by (symmetry; apply N.leb_le; lia).
  simpl. f_equal. lia.
Qed.

Lemma FormatUint_go_step (fuel : nat) (n : N) (acc : string) :
  FormatUint_go fuel n acc
  = match fuel with
    | O => String (ascii_of_N (48 + n mod 10)) acc
    | S fuel' =>
        if (n <? 10)%N then String (ascii_of_N (48 + n mod 10)) acc
        else FormatUint_go fuel' (n / 10)
               (String (ascii_of_N (48 + n mod 10)) acc)
    end.
Proof. by destruct fuel. Qed.

(** The text of a number starts with a digit. *)
Lemma FormatUint_go_first (fuel : nat) :
  ∀ (n : N) (acc : string),
    ∃ c s, FormatUint_go fuel n acc = String c s ∧ is_Some (digit_of c).
Proof.
  induction fuel as [|fuel IH]; intros n acc; rewrite FormatUint_go_step.
  - eexists _, _. split; [done|]. rewrite digit_of_digit; [by eexists|].
    apply N.mod_lt. lia.
  - destruct (n <? 10)%N; [|apply IH].
    eexists _, _. split; [done|]. rewrite digit_of_digit; [by eexists|].
    apply N.mod_lt. lia.
Qed.

Lemma ParseUint_from_digit (d n : N) (s : string) :
  (d < 10)%N → (n * 10 + d ≤ maxUint64)%N →
  ParseUint_from (String (ascii_of_N (48 + d)) s) n
  = ParseUint_from s (n * 10 + d).
Proof.
  intros Hd Hmax. cbn [ParseUint_from]. rewrite digit_of_digit by done.
  unfold maxUint64 in *.
  replace (_ <=? n)%N with false
    by (symmetry; apply N.leb_gt; change (18446744073709551615 / 10 + 1)%N
          with 1844674407370955162%N; lia).
  replace (_ <? n * 10 + d)%N with false by (symmetry; apply N.ltb_ge; lia).
  done.
Qed.

(** Reading the digits of [n] brings the value read so far from 0 to
    [n]. *)
Lemma ParseUint_from_FormatUint_go (fuel : nat) :
  ∀ (n : N) (acc : string),
    (N.log2 n ≤ N.of_nat fuel)%N → (n ≤ maxUint64)%N →
    ParseUint_from (FormatUint_go fuel n acc) 0 = ParseUint_from acc n.
Proof.
  induction fuel as [|fuel IH]; intros n acc Hfuel Hmax;
    rewrite FormatUint_go_step.
  - assert (Hn : (n < 2)%N).
    { destruct (decide (n < 2)%N) as [|Hge]; [done|].
      assert (1 ≤ N.log2 n)%N; [|lia].
      change 1%N with (N.log2 2). apply N.log2_le_mono. lia. }
    rewrite N.mod_small by lia.
    rewrite ParseUint_from_digit by (unfold maxUint64; lia).
    f_equal.
  - destruct (n <? 10)%N eqn:Hlt.
    + apply N.ltb_lt in Hlt. rewrite N.mod_small by lia.
      rewrite ParseUint_from_digit by (unfold maxUint64; lia). f_equal.
    + apply N.ltb_ge in Hlt.
      pose proof (N.div_mod n 10 ltac:(lia)) as Hdiv.
      pose proof (N.mod_lt n 10 ltac:(lia)) as Hmod.
      rewrite IH.
      * rewrite ParseUint_from_digit by (unfold maxUint64 in *; lia).
        f_equal. lia.
      * assert (N.log2 (n / 10) ≤ N.log2 (n / 2))%N as Hle.
        { apply N.log2_le_mono.
          apply N.div_le_compat_l. lia. }
        rewrite <- N.div2_div, N.div2_spec, N.log2_shiftr in Hle.
        assert (3 ≤ N.log2 n)%N.
        { change 3%N with (N.log2 8). apply N.log2_le_mono. lia. }
        clear -Hfuel Hle H.
        set (a := N.log2 (n / 10)) in *. set (b := N.log2 n) in *.
        clearbody a b. lia.
      * apply (N.le_trans _ n); [|done].
        apply N.Div0.div_le_upper_bound. lia.
Qed.

Lemma ParseUint_FormatUint (n : N) :
  (n ≤ maxUint64)%N → ParseUint (FormatUint n) = (n, None).
Proof.
  intros Hmax. unfold FormatUint.
  destruct (FormatUint_go_first (N.to_nat (N.log2 n)) n "")
    as (c & s & Heq & _).
  unfold ParseUint. rewrite Heq, <- Heq.
  rewrite ParseUint_from_FormatUint_go; [done | lia | done].
Qed.

(** A digit is no sign. *)
Lemma digit_no_sign (c : ascii) :
  is_Some (digit_of c) → Ascii.eqb c "+" = false ∧ Ascii.eqb c "-" = false.
Proof.
  intros [d Hd]. unfold digit_of in Hd.
  destruct (_ && _) eqn:Hrange; [|done].
  apply andb_true_iff in Hrange as [Hlo%N.leb_le Hhi%N.leb_le].
  split; apply Ascii.eqb_neq; intros ->; simpl in *; lia.
Qed.

(** [ParseInt] reads back what [FormatInt] writes. *)
Lemma ParseInt_FormatInt (i : Z) :
  (minInt64 ≤ i ≤ maxInt64)%Z → ParseInt (FormatInt i) = (i, None).
Proof.
  unfold minInt64, maxInt64. intros Hi. destruct i as [|p|p].
  - done.
  - unfold FormatInt.
    destruct (FormatUint_go_first (N.to_nat (N.log2 (Z.to_N (Z.pos p))))
                (Z.to_N (Z.pos p)) "") as (c & s & Heq & Hc).
    fold (FormatUint (Z.to_N (Z.pos p))) in Heq.
    destruct (digit_no_sign c Hc) as [Hplus Hminus].
    unfold ParseInt. rewrite Heq, Hplus, Hminus. cbn [orb negb andb].
    rewrite <- Heq, ParseUint_FormatUint by (unfold maxUint64; lia).
    replace (_ <=? _)%N with false by (symmetry; apply N.leb_gt; lia).
    f_equal.
  - unfold FormatInt. change ("-" ++ ?s) with (String "-" s).
    unfold ParseInt. change (Ascii.eqb "-" "-") with true.
    change (Ascii.eqb "-" "+") with false. cbn [orb negb andb].
    rewrite ParseUint_FormatUint by (unfold maxUint64; lia).
    replace (_ <? _)%N with false by (symmetry; apply N.ltb_ge; lia).
    f_equal.
Qed.

Lemma HasPrefix_minus (c : ascii) (s : string) :
  GoStrings.HasPrefix (String c s) "-" = Ascii.eqb c "-".
Proof.
  rewrite (StringFacts.HasPrefix_byte "-" c s).
  destruct (Ascii.eqb_spec c "-") as [-> | Hne].
  - by apply bool_decide_eq_true_2.
  - apply bool_decide_eq_false_2. congruence.
Qed.

(** What [ParseInt] returns beside an error: 0 with a syntax error, the
    bound on the side of the sign with a range error. *)
Lemma ParseInt_error (s : string) (v : Z) (e : NumError) :
  ParseInt s = (v, Some e) →
  v = match e with
      | ErrSyntax => 0%Z
      | ErrRange => if GoStrings.HasPrefix s "-" then minInt64 else maxInt64
      end.
Proof.
  unfold ParseInt. destruct s as [|c s]; [by intros [= <- <-]|].
  rewrite HasPrefix_minus.
  destruct (Ascii.eqb c "-"); cbn [negb andb];
    destruct (ParseUint _) as [un [[]|]];
    repeat case_match; intros Heq; by simplify_eq.
Qed.


End StrconvFacts.

Module TimeFacts.
Import GoStrings Http Registry Api GoStrconv Settings TimeApi.
Import StringFacts RegistryFacts StrconvFacts.

Section Facts.
Context {E : Type} `{TimeCollaborators E}.

(** The state after [status.Log] of one line. *)
Definition noted (line : string) (s : state E) : state E :=
  mkState
    (mkWorld (conf (reg s)) (heap (reg s)) (logged (reg s))
             (notices (reg s) ++ [line]))
    (resp s) (env s).

(** [jsonObject{"status": "KO", "response": []string{err}}] *)
Definition failed (err : error) : jsonObject :=
  Some (<["status" := string_value "KO"]>
          (<["response" := strings_value [err]]> ∅)).

Lemma errorResponse_KO (err : error) (s : state E) :
  errorResponse err "" s = Done (failed err) (noted err s).
Proof. by destruct s as [[? ? ? ?] ? ?]. Qed.

(** Why [setTime] turns a request down, if it does: the error of the
    parser, else the one of the validation, else a member [epoch] that is
    no number. *)
Definition rejection (req : requestObject) (err : option error)
  : option error :=
  match err with
  | Some err => Some err
  | None =>
      match validateRequest req ["epoch:n"] with
      | Some err => Some err
      | None =>
          match map_get req "epoch" with
          | Some (json_Number _) => None
          | _ => Some (errors_New "invalid epoch format")
          end
      end
  end.

(** The body of [if conf.SetTime] and the return after it. *)
Definition adjust (epoch : Z) : M (state E) jsonObject :=
  '(_, err) ← execCommand "/bin/date" ["-s"; "@" ++ FormatInt epoch] true "";
  match err with
  | Some err => errorResponse err ""
  | None =>
      '(hour, min, sec) ← time_Now_Clock;
      liftR (status_Log
               ("adjusted device time to " ++ two_digits hour
                  ++ ":" ++ two_digits min ++ ":" ++ two_digits sec));;
      mret ok_response
  end.

Lemma setTime_rejected (o : settings) (r : Request) (s s1 : state E)
    (req : requestObject) (perr : option error) (e : error) :
  parseRequest r s = Done (req, perr) s1 →
  rejection req perr = Some e →
  setTime o r s = Done (failed e) (noted e s1).
Proof.
  intros Hparse Hrej. unfold setTime. rewrite (bind_Done _ _ _ _ _ Hparse).
  unfold rejection in Hrej. destruct perr as [err|].
  { injection Hrej as <-. apply errorResponse_KO. }
  destruct (validateRequest req ["epoch:n"]) as [err|].
  { injection Hrej as <-. apply errorResponse_KO. }
  destruct (map_get req "epoch") as [[t|]|]; [done|..];
    injection Hrej as <-; apply errorResponse_KO.
Qed.

Lemma setTime_accepted (o : settings) (r : Request) (s s1 : state E)
    (req : requestObject) (t : string) :
  parseRequest r s = Done (req, None) s1 →
  validateRequest req ["epoch:n"] = None →
  map_get req "epoch" = Some (json_Number t) →
  setTime o r s
  = if SetTime o then adjust (ParseInt t).1 s1 else Done ok_response s1.
Proof.
  intros Hparse Hvalid Hepoch. unfold setTime.
  rewrite (bind_Done _ _ _ _ _ Hparse). rewrite Hvalid, Hepoch.
  unfold Int64. destruct (ParseInt t) as [epoch err]. simpl.
  by destruct (SetTime o).
Qed.

(** X16. With [conf.SetTime] false, [setTime] executes no command and
    does not read the clock. Whatever the parser returns, it answers either
    the [KO] envelope with the error, which is also logged as a notice,
    when the request is turned down (the error of the parser, else the one
    of the validation, else an [epoch] that is no number), or else status
    [OK], for any number sent, with the state as the parser left it. *)
Theorem setTime_disabled (o : settings) (r : Request) (s s1 : state E)
    (req : requestObject) (perr : option error) :
  SetTime o = false →
  parseRequest r s = Done (req, perr) s1 →
  setTime o r s
  = match rejection req perr with
    | Some e => Done (failed e) (noted e s1)
    | None => Done ok_response s1
    end.
Proof.
  intros Hoff Hparse. destruct (rejection req perr) as [e|] eqn:Hrej.
  { by apply (setTime_rejected o r s s1 req perr). }
  unfold rejection in Hrej. destruct perr as [err|]; [done|].
  destruct (validateRequest req ["epoch:n"]) as [err|] eqn:Hvalid; [done|].
  destruct (map_get req "epoch") as [[t|]|] eqn:Hepoch; [|done..].
  by rewrite (setTime_accepted o r s s1 req t), Hoff.
Qed.

(** X17. With [conf.SetTime] true and a request that is parsed and
    validated without error, whose [epoch] is the decimal text of a 64-bit
    integer: [setTime] executes [/bin/date -s @<epoch>] as root, with
    the digits of that same integer; it then answers [KO] with the error of
    the command logged as a notice, or, after the command succeeded, logs
    the notice "adjusted device time to hh:mm:ss" read from the clock and
    answers status [OK]. *)
Theorem setTime_sets_epoch (o : settings) (r : Request) (s s1 : state E)
    (req : requestObject) (epoch : Z) :
  SetTime o = true →
  parseRequest r s = Done (req, None) s1 →
  validateRequest req ["epoch:n"] = None →
  map_get req "epoch" = Some (json_Number (FormatInt epoch)) →
  (minInt64 ≤ epoch ≤ maxInt64)%Z →
  setTime o r s = adjust epoch s1.
Proof.
  intros Hon Hparse Hvalid Hepoch Hrange.
  rewrite (setTime_accepted o r s s1 req (FormatInt epoch)) by done.
  by rewrite Hon, ParseInt_FormatInt.
Qed.

(** X18. The error of [Int64] is dropped. When the text of the number is
    not that of a 64-bit integer, [setTime] (with [conf.SetTime] true, on
    a request parsed and validated without error) executes the command as
    for an integer: with [@0] when the text is no decimal integer at all,
    as for a fraction or an exponent, and with the bound of the 64-bit
    range on the side of the sign when the integer is out of range. *)
Theorem setTime_ignores_Int64_error (o : settings) (r : Request)
    (s s1 : state E) (req : requestObject) (t : string) (e : NumError) :
  SetTime o = true →
  parseRequest r s = Done (req, None) s1 →
  validateRequest req ["epoch:n"] = None →
  map_get req "epoch" = Some (json_Number t) →
  (Int64 t).2 = Some e →
  setTime o r s
  = adjust (match e with
            | ErrSyntax => 0
            | ErrRange => if HasPrefix t "-" then minInt64 else maxInt64
            end) s1.
Proof.
  intros Hon Hparse Hvalid Hepoch Herr.
  rewrite (setTime_accepted o r s s1 req t) by done. rewrite Hon.
  unfold Int64 in Herr. destruct (ParseInt t) as [v err] eqn:Hint.
  simpl in Herr. subst err. by rewrite (ParseInt_error t v e Hint).
Qed.

End Facts.

Import Examples MoreExamples.

Lemma setTime_disabled_witness :
  @setTime _ (clockwork (epoch_request "1700000000")) (settings_with false) post_time idle
  = Done ok_response idle
  ∧ @setTime _ (clockwork (Some ∅)) (settings_with false) post_time idle
    = Done (failed "missing attribute") (noted "missing attribute" idle).
Proof.
  split.
  - rewrite (@setTime_disabled _ (clockwork (epoch_request "1700000000"))
               (settings_with false) post_time idle idle (epoch_request "1700000000") None)
      by reflexivity.
    reflexivity.
  - rewrite (@setTime_disabled _ (clockwork (Some ∅))
               (settings_with false) post_time idle idle (Some ∅) None)
      by reflexivity.
    reflexivity.
Defined.

Lemma setTime_sets_epoch_witness :
  env (final (@setTime _ (clockwork (epoch_request "1700000000")) (settings_with true)
                post_time idle))
  = ["/bin/date -s @1700000000"]
  ∧ notices (reg (final (@setTime _ (clockwork (epoch_request "1700000000"))
                           (settings_with true) post_time idle)))
    = ["adjusted device time to 09:05:00"].
Proof.
  rewrite (@setTime_sets_epoch _ (clockwork (epoch_request "1700000000"))
             (settings_with true) post_time idle idle (epoch_request "1700000000")
             1700000000%Z);
    [| reflexivity | reflexivity | reflexivity | vm_compute; reflexivity
     | unfold minInt64, maxInt64; lia].
  split; vm_compute; reflexivity.
Defined.

Lemma setTime_ignores_Int64_error_witness :
  env (final (@setTime _ (clockwork (epoch_request "1.5")) (settings_with true)
                post_time idle))
  = ["/bin/date -s @0"]
  ∧ env (final (@setTime _ (clockwork (epoch_request "-1e30")) (settings_with true)
                  post_time idle))
    = ["/bin/date -s @0"]
  ∧ env (final (@setTime _ (clockwork (epoch_request "-9223372036854775809"))
                  (settings_with true) post_time idle))
    = ["/bin/date -s @-9223372036854775808"].
Proof.
  split; [|split].
  - rewrite (@setTime_ignores_Int64_error _ (clockwork (epoch_request "1.5"))
               (settings_with true) post_time idle idle (epoch_request "1.5") "1.5"
               ErrSyntax);
      [| reflexivity | reflexivity | reflexivity | reflexivity
       | vm_compute; reflexivity].
    vm_compute; reflexivity.
  - rewrite (@setTime_ignores_Int64_error _ (clockwork (epoch_request "-1e30"))
               (settings_with true) post_time idle idle (epoch_request "-1e30") "-1e30"
               ErrSyntax);
      [| reflexivity | reflexivity | reflexivity | reflexivity
       | vm_compute; reflexivity].
    vm_compute; reflexivity.
  - rewrite (@setTime_ignores_Int64_error _
               (clockwork (epoch_request "-9223372036854775809"))
               (settings_with true) post_time idle idle
               (epoch_request "-9223372036854775809") "-9223372036854775809"
               ErrRange);
      [| reflexivity | reflexivity | reflexivity | reflexivity
       | vm_compute; reflexivity].
    vm_compute; reflexivity.
Defined.

End TimeFacts.
